(** * Dimdam's translator: a shallow embedding of [src/translator/index.js]

    First the embedding: JavaScript strings, the chunk engine [chunkText],
    JavaScript values and [makeError], the response parser, the
    collaborators and the cache, the request builder, the orchestrator
    [translate] with its recursive chunk calls, the bulk warm-up
    [loadLanguages] and, from the command loader, [buildPaths].  Then the
    properties. *)

From Stdlib Require Import Ascii String DecimalString.
From stdpp Require Import base option list gmap.

Open Scope nat_scope.
#[local] Set Warnings "-register-all".

(** ** JavaScript strings

    A JavaScript string is a sequence of UTF-16 code units; [length],
    [slice], [split] and the regular expressions of the source (which have
    no [u] flag) all count and match code units. *)

Definition code_unit := N.
Definition jsstring := list code_unit.

(** Literals of the source are written [js "..."]. *)
Definition js (s : string) : jsstring :=
  map N_of_ascii (list_ascii_of_string s).

(** The character class [\s]: WhiteSpace and LineTerminator of ECMAScript. *)
Definition is_space (c : code_unit) : bool :=
  ((9 <=? c) && (c <=? 13) || (c =? 32) || (c =? 160) || (c =? 5760)
   || (8192 <=? c) && (c <=? 8202) || (c =? 8232) || (c =? 8233)
   || (c =? 8239) || (c =? 8287) || (c =? 12288) || (c =? 65279))%N.

(** ** The chunk engine *)

Module Chunk.

(** [str.split(/(\s+)/)]: the pieces between maximal whitespace runs
    alternate with the runs themselves (kept by the capture group).  A run
    at the very start or end of [str] leaves an empty piece next to it.
    [in_ws] tells whether [cur] is a whitespace run being extended. *)
Fixpoint split_go (in_ws : bool) (cur : jsstring) (s : jsstring)
  : list jsstring :=
  match s with
  | [] => if in_ws then [cur; []] else [cur]
  | c :: s' =>
      if is_space c then
        if in_ws then split_go true (cur ++ [c]) s'
        else cur :: split_go true [c] s'
      else
        if in_ws then cur :: split_go false [c] s'
        else split_go false (cur ++ [c]) s'
  end.

Definition split_ws (str : jsstring) : list jsstring :=
  split_go false [] str.

(** The inner loop
    [while (current.length > limit) { parts.push(current.slice(0, limit));
       current = current.slice(limit); }].
    With [limit = 0] the JavaScript loop never ends; the embedding then
    runs out of [fuel] and answers [None]. *)
Fixpoint hard_split (fuel : nat) (limit : nat)
    (parts : list jsstring) (current : jsstring)
  : option (list jsstring * jsstring) :=
  if limit <? length current then
    match fuel with
    | O => None
    | S fuel' =>
        hard_split fuel' limit (parts ++ [take limit current])
                   (drop limit current)
    end
  else Some (parts, current).

(** One iteration of [for (const tok of tokens)]. *)
Definition step (limit : nat) (st : list jsstring * jsstring)
    (tok : jsstring) : option (list jsstring * jsstring) :=
  let '(parts, current) := st in
  if (limit <? length (current ++ tok)) && (0 <? length current) then
    hard_split (length tok) limit (parts ++ [current]) tok
  else Some (parts, current ++ tok).

Fixpoint loop (limit : nat) (st : list jsstring * jsstring)
    (tokens : list jsstring) : option (list jsstring * jsstring) :=
  match tokens with
  | [] => Some st
  | tok :: rest =>
      match step limit st tok with
      | Some st' => loop limit st' rest
      | None => None
      end
  end.

(** [if (current) parts.push(current); return parts;] *)
Definition finish (st : list jsstring * jsstring) : list jsstring :=
  let '(parts, current) := st in
  match current with
  | [] => parts
  | _ :: _ => parts ++ [current]
  end.

Definition chunkText (str : jsstring) (limit : nat)
  : option (list jsstring) :=
  if length str <=? limit then Some [str]
  else finish <$> loop limit ([], []) (split_ws str).

End Chunk.

(** ** JavaScript values

    The values that reach the translator: option fields, the decoded JSON
    body, the normalised language codes.  Numbers are kept where they are
    integers (chunk limits, status codes, integer JSON literals). *)

Inductive JsValue :=
| JUndefined
| JNull
| JBool (b : bool)
| JNum (n : Z)
| JStr (s : jsstring)
| JArr (elems : list JsValue)
| JObj (props : list (jsstring * JsValue)).

(** What [throw] can carry: an error built by [makeError], the runtime's
    TypeError, SyntaxError and URIError, or the rejection of an external
    promise. *)
Inductive Thrown :=
| MadeError (code : N) (message : jsstring) (cause : option Thrown)
| TypeError
| SyntaxError
| URIError
| Rejection (message : jsstring).

Definition makeError (code : N) (message : jsstring) (cause : option Thrown)
  : Thrown := MadeError code message cause.

Definition error_code (e : Thrown) : option N :=
  match e with MadeError code _ _ => Some code | _ => None end.

(** Code that may throw: [inl] is the exception, [inr] the value. *)
Definition bind_throw {A B} (m : Thrown + A) (f : A -> Thrown + B)
  : Thrown + B :=
  match m with inl e => inl e | inr a => f a end.

Notation "x <-! m ; k" := (bind_throw m (fun x => k))
  (at level 100, m at next level, right associativity,
   format "'[v' x  <-!  m ; '/' k ']'").

Definition nonempty (s : jsstring) : bool :=
  match s with [] => false | _ :: _ => true end.

(** ToBoolean. *)
Definition truthy (v : JsValue) : bool :=
  match v with
  | JUndefined | JNull => false
  | JBool b => b
  | JNum n => negb (n =? 0)%Z
  | JStr s => nonempty s
  | JArr _ | JObj _ => true
  end.

Definition nullish (v : JsValue) : bool :=
  match v with JUndefined | JNull => true | _ => false end.

Definition isArray (v : JsValue) : bool :=
  match v with JArr _ => true | _ => false end.

(** Number::toString on an integer: plain decimal digits, which is what
    JavaScript prints for magnitudes below 10^21 (from there on it prints
    an exponent form, which this function does not follow). *)
Definition num_to_string (n : Z) : jsstring :=
  js (NilZero.string_of_int (Z.to_int n)).

Fixpoint assoc (k : jsstring) (props : list (jsstring * JsValue))
  : option JsValue :=
  match props with
  | [] => None
  | (k', v) :: rest => if bool_decide (k = k') then Some v else assoc k rest
  end.

(** ToString.  An array joins its elements with commas (null and undefined
    print as nothing).  A plain object prints as [[object Object]] through
    [Object.prototype.toString]; a decoded object that carries its own
    [toString] entry shadows that method with a non-callable value, and the
    conversion throws. *)
Fixpoint to_string (v : JsValue) : Thrown + jsstring :=
  match v with
  | JUndefined => inr (js "undefined")
  | JNull => inr (js "null")
  | JBool true => inr (js "true")
  | JBool false => inr (js "false")
  | JNum n => inr (num_to_string n)
  | JStr s => inr s
  | JArr elems =>
      (fix join (l : list JsValue) : Thrown + jsstring :=
         match l with
         | [] => inr []
         | x :: rest =>
             sx <-! (if nullish x then inr [] else to_string x);
             match rest with
             | [] => inr sx
             | _ :: _ => sr <-! join rest; inr (sx ++ js "," ++ sr)
             end
         end) elems
  | JObj props =>
      match assoc (js "toString") props with
      | Some _ => inl TypeError
      | None => inr (js "[object Object]")
      end
  end.

(** [v[i]] for an integer index [i].  Reading a property of [null] or
    [undefined] throws; a string yields its [i]-th code unit; numbers and
    booleans have no such property. *)
Definition index_key (i : nat) : jsstring :=
  js (NilZero.string_of_uint (Nat.to_uint i)).

Definition index (v : JsValue) (i : nat) : Thrown + JsValue :=
  match v with
  | JUndefined | JNull => inl TypeError
  | JBool _ | JNum _ => inr JUndefined
  | JStr s => inr (match s !! i with Some c => JStr [c] | None => JUndefined end)
  | JArr elems => inr (default JUndefined (elems !! i))
  | JObj props => inr (default JUndefined (assoc (index_key i) props))
  end.

(** [v?.[i]]. *)
Definition opt_index (v : JsValue) (i : nat) : JsValue :=
  match index v i with inl _ => JUndefined | inr x => x end.

(** [a ?? b]. *)
Definition coalesce (a b : JsValue) : JsValue :=
  if nullish a then b else a.

(** [a === b] where at least one side is a primitive: arrays and objects
    are compared by identity, and a primitive is never identical to one. *)
Definition strict_eq (a b : JsValue) : bool :=
  match a, b with
  | JUndefined, JUndefined | JNull, JNull => true
  | JBool x, JBool y => eqb x y
  | JNum x, JNum y => (x =? y)%Z
  | JStr x, JStr y => bool_decide (x = y)
  | _, _ => false
  end.

(** ** The result object *)

Record LanguageInfo := {
  didYouMean : bool;
  iso : JsValue
}.

Record TextInfo := {
  autoCorrected : bool;
  value : jsstring;
  text_didYouMean : bool
}.

Record FromInfo := {
  language : LanguageInfo;
  from_text : TextInfo
}.

Record TranslateResult := {
  text : jsstring;
  from : FromInfo;
  raw : JsValue
}.

(** ** The response parser *)

Module Parser.

(** The body of
    [for (const obj of body[0]) { if (obj && obj[0]) result.text += obj[0]; }]. *)
Definition append_segment (acc : jsstring) (obj : JsValue)
  : Thrown + jsstring :=
  if truthy obj then
    first <-! index obj 0;
    if truthy first then s <-! to_string first; inr (acc ++ s)
    else inr acc
  else inr acc.

Fixpoint append_segments (acc : jsstring) (segs : list JsValue)
  : Thrown + jsstring :=
  match segs with
  | [] => inr acc
  | obj :: rest =>
      acc' <-! append_segment acc obj;
      append_segments acc' rest
  end.

(** [if (Array.isArray(body) && Array.isArray(body[0])) { ... }] *)
Definition extract_text (body : JsValue) : Thrown + jsstring :=
  if isArray body then
    b0 <-! index body 0;
    match b0 with
    | JArr segs => append_segments [] segs
    | _ => inr []
    end
  else inr [].

(** [body?.[8]?.[0]?.[0] ?? body?.[2] ?? fromISO] *)
Definition detectedIso (body fromISO : JsValue) : JsValue :=
  coalesce (opt_index (opt_index (opt_index body 8) 0) 0)
           (coalesce (opt_index body 2) fromISO).

Definition detect_language (body fromISO : JsValue) : LanguageInfo :=
  let d := detectedIso body fromISO in
  if truthy d && negb (strict_eq d fromISO) then
    {| didYouMean := true; iso := d |}
  else
    {| didYouMean := false; iso := if truthy d then d else fromISO |}.

(** [str.replace(/pat/g, rep)] for a literal, non-empty pattern: matches
    are found left to right and do not overlap.  [skip] counts the code
    units of a match still to be dropped. *)
Fixpoint starts_with (pat s : jsstring) : bool :=
  match pat, s with
  | [], _ => true
  | _ :: _, [] => false
  | p :: pat', c :: s' => (p =? c)%N && starts_with pat' s'
  end.

Fixpoint replace_go (pat rep : jsstring) (skip : nat) (s : jsstring)
  : jsstring :=
  match s with
  | [] => []
  | c :: s' =>
      match skip with
      | S k => replace_go pat rep k s'
      | O =>
          if starts_with pat s
          then rep ++ replace_go pat rep (length pat - 1) s'
          else c :: replace_go pat rep 0 s'
      end
  end.

Definition replace_all (pat rep s : jsstring) : jsstring :=
  replace_go pat rep 0 s.

(** [str.replace(/<b><i>/g, "[").replace(/<\/i><\/b>/g, "]")] *)
Definition rewrite_markers (str : jsstring) : jsstring :=
  replace_all (js "</i></b>") (js "]")
    (replace_all (js "<b><i>") (js "[") str).

Definition no_suggestion : TextInfo :=
  {| autoCorrected := false; value := []; text_didYouMean := false |}.

(** The block under [// Spelling suggestions (index [7])].  A truthy
    [body[7][0]] that is not a string has no [replace] method, so the call
    [str.replace(...)] throws a TypeError. *)
Definition spelling (body : JsValue) : Thrown + TextInfo :=
  if isArray (opt_index body 7) then
    b7 <-! index body 7;
    first <-! index b7 0;
    if truthy first then
      match first with
      | JStr str =>
          flag <-! index b7 5;
          if strict_eq flag (JBool true) then
            inr {| autoCorrected := true; value := rewrite_markers str;
                   text_didYouMean := false |}
          else
            inr {| autoCorrected := false; value := rewrite_markers str;
                   text_didYouMean := true |}
      | _ => inl TypeError
      end
    else inr no_suggestion
  else inr no_suggestion.

(** Lines 153-201 of the source: from the decoded [body] to [result]. *)
Definition parse_response (want_raw : bool) (fromISO body : JsValue)
  : Thrown + TranslateResult :=
  txt <-! extract_text body;
  sugg <-! spelling body;
  inr {| text := txt;
         from := {| language := detect_language body fromISO;
                    from_text := sugg |};
         raw := if want_raw then body else JStr [] |}.

End Parser.

(** ** Collaborators

    [./languages], [./token], undici's [request] and the encoders of the
    Node runtime are outside the translator; they enter as interfaces. *)

(** What [getISOCode] may answer ([string | null | false] in index.d.ts). *)
Inductive IsoCode :=
| Iso (code : jsstring)
| IsoNull
| IsoFalse.

Definition iso_value (c : IsoCode) : JsValue :=
  match c with
  | Iso code => JStr code
  | IsoNull => JNull
  | IsoFalse => JBool false
  end.

(** [`${c}`] *)
Definition iso_string (c : IsoCode) : jsstring :=
  match c with
  | Iso code => code
  | IsoNull => js "null"
  | IsoFalse => js "false"
  end.

Class Languages := {
  isSupported : JsValue -> bool;
  getISOCode : JsValue -> IsoCode
}.

(** [request(url)] or [request(url, { method: "POST", body, headers })]. *)
Inductive Request :=
| GET (url : jsstring)
| POST (url body contentType : jsstring).

(** A response: its status, what [body.json()] resolves to ([None] when it
    rejects) and what [body.text()] resolves to afterwards. *)
Record Response := {
  statusCode : N;
  body_json : option JsValue;
  body_text : option jsstring
}.

Inductive TransportOutcome :=
| RequestFails (message : jsstring)
| Responds (r : Response).

(** What [tokenGenerator.generate(text)] settles to. *)
Inductive TokenOutcome :=
| TokenFails (message : jsstring)
| TokenIsError
| TokenIsFalsy
| Token (name value : jsstring).

(** The interactions of a call, in the order they happen. *)
Inductive Event :=
| CacheGet (key : jsstring)
| CacheSet (key : jsstring)
| TokenCall (txt : jsstring)
| TransportCall (req : Request).

(** The outside world answers as a function of everything that happened
    before; [latency] is the time (ms) an awaited interaction takes. *)
Class Upstream := {
  generate : list Event -> jsstring -> TokenOutcome;
  request : list Event -> Request -> TransportOutcome;
  latency : list Event -> N
}.

(** [querystring.stringify], [new URLSearchParams(...).toString()],
    [JSON.parse] and the StringToNumber conversion of [Number(...)].
    [querystring.stringify] percent-encodes keys and values and throws a
    URIError ([None]) at a string it cannot encode, such as one that holds
    an unpaired surrogate; [URLSearchParams] replaces such code units and
    never throws. *)
Class Runtime := {
  stringify : list (jsstring * JsValue) -> option jsstring;
  form_encode : list (jsstring * jsstring) -> jsstring;
  JSON_parse : jsstring -> option JsValue;
  StringToNumber : jsstring -> option Z
}.

(** ** The cache: [new NodeCache({ stdTTL: 86400 })]

    NodeCache is a dependency; the translator only calls [get] and [set].
    An entry is kept with the time (ms) at which it expires. *)

Module Cache.

Definition stdTTL : N := 86400.

(** Modelled from the spec: [cache.get(key)] of the NodeCache dependency,
    [get(key) -> TranslateResult | absent]; an entry whose time-to-live has
    run out is treated as absent, expiry being checked on read. *)
Definition get (key : jsstring) (now : N)
    (data : gmap jsstring (TranslateResult * N)) : option TranslateResult :=
  match data !! key with
  | Some (v, t) => if (now <=? t)%N then Some v else None
  | None => None
  end.

(** Modelled from the spec: [cache.set(key, value)] of the NodeCache
    dependency; it installs or replaces the entry with a fresh
    time-to-live of 86 400 seconds starting now. *)
Definition set (key : jsstring) (v : TranslateResult) (now : N)
    (data : gmap jsstring (TranslateResult * N))
  : gmap jsstring (TranslateResult * N) :=
  <[key := (v, (now + stdTTL * 1000)%N)]> data.

End Cache.

(** The module-level state a call runs in. *)
Record World := {
  cache : gmap jsstring (TranslateResult * N);
  trace : list Event;
  now : N
}.

Definition cache_get (key : jsstring) (w : World)
  : option TranslateResult * World :=
  (Cache.get key (now w) (cache w),
   {| cache := cache w; trace := trace w ++ [CacheGet key]; now := now w |}).

Definition cache_set (key : jsstring) (v : TranslateResult) (w : World)
  : World :=
  {| cache := Cache.set key v (now w) (cache w);
     trace := trace w ++ [CacheSet key]; now := now w |}.

Definition await_token `{Upstream} (txt : jsstring) (w : World)
  : TokenOutcome * World :=
  (generate (trace w) txt,
   {| cache := cache w; trace := trace w ++ [TokenCall txt];
      now := (now w + latency (trace w ++ [TokenCall txt]))%N |}).

Definition await_request `{Upstream} (req : Request) (w : World)
  : TransportOutcome * World :=
  (request (trace w) req,
   {| cache := cache w; trace := trace w ++ [TransportCall req];
      now := (now w + latency (trace w ++ [TransportCall req]))%N |}).

(** ** The request builder *)

Module Builder.

(** An object literal is kept as its property list in enumeration order:
    integer-like keys first, then the others in insertion order. *)
Definition digits_value (k : jsstring) : option N :=
  foldl (fun acc c =>
           match acc with
           | Some a =>
               if ((48 <=? c) && (c <=? 57))%N
               then Some (a * 10 + (c - 48))%N else None
           | None => None
           end) (Some 0%N) k.

Definition is_array_index (k : jsstring) : bool :=
  match k with
  | [] => false
  | c :: rest =>
      (negb (c =? 48)%N || negb (nonempty rest))
      && match digits_value k with
         | Some n => (n <? 4294967295)%N
         | None => false
         end
  end.

Fixpoint obj_has (k : jsstring) (o : list (jsstring * JsValue)) : bool :=
  match o with
  | [] => false
  | (k', _) :: rest => bool_decide (k = k') || obj_has k rest
  end.

Fixpoint obj_overwrite (k : jsstring) (v : JsValue)
    (o : list (jsstring * JsValue)) : list (jsstring * JsValue) :=
  match o with
  | [] => []
  | (k', v') :: rest =>
      if bool_decide (k = k') then (k', v) :: rest
      else (k', v') :: obj_overwrite k v rest
  end.

(** [{ ...o, [k]: v }] for an [o] whose keys are not integer-like. *)
Definition obj_set (k : jsstring) (v : JsValue)
    (o : list (jsstring * JsValue)) : list (jsstring * JsValue) :=
  if obj_has k o then obj_overwrite k v o
  else if is_array_index k then (k, v) :: o
  else o ++ [(k, v)].

(** [delete o[k]] *)
Definition obj_delete (k : jsstring) (o : list (jsstring * JsValue))
  : list (jsstring * JsValue) :=
  filter (fun kv => kv.1 <> k) o.

Definition baseUrl : jsstring :=
  js "https://translate.google.com/translate_a/single".

Definition dt : JsValue :=
  JArr [JStr (js "at"); JStr (js "bd"); JStr (js "ex"); JStr (js "ld");
        JStr (js "md"); JStr (js "qca"); JStr (js "rw"); JStr (js "rm");
        JStr (js "ss"); JStr (js "t")].

(** [let data = { client: "gtx", ..., q: text, [token.name]: token.value }] *)
Definition data (fromISO toISO : IsoCode) (txt name value : jsstring)
  : list (jsstring * JsValue) :=
  obj_set name (JStr value)
    [ (js "client", JStr (js "gtx"));
      (js "sl", iso_value fromISO);
      (js "tl", iso_value toISO);
      (js "hl", iso_value toISO);
      (js "dt", dt);
      (js "ie", JStr (js "UTF-8"));
      (js "oe", JStr (js "UTF-8"));
      (js "otf", JNum 1);
      (js "ssel", JNum 0);
      (js "tsel", JNum 0);
      (js "kc", JNum 7);
      (js "q", JStr txt) ].

(** [`${baseUrl}?${querystring.stringify(data)}`] (lines 110 and 116),
    which throws when [querystring.stringify] does. *)
Definition get_url `{Runtime} (d : list (jsstring * JsValue))
  : Thrown + jsstring :=
  match stringify d with
  | None => inl URIError
  | Some query => inr (baseUrl ++ js "?" ++ query)
  end.

(** Lines 110-127: [requestOptions].  The URL with the text inline is
    built first, outside any [try]; the POST branch builds a second URL
    from the data without [q]. *)
Definition requestOptions `{Runtime} (fromISO toISO : IsoCode)
    (txt name value : jsstring) : Thrown + Request :=
  let d := data fromISO toISO txt name value in
  url <-! get_url d;
  if 2048 <? length url then
    url' <-! get_url (obj_delete (js "q") d);
    inr (POST url' (form_encode [(js "q", txt)])
              (js "application/x-www-form-urlencoded;charset=UTF-8"))
  else inr (GET url).

End Builder.

(** ** The options argument

    [translate(text, options)]: [options] is not an object (then a fresh
    [{}] takes its place), is [null] (whose [typeof] is ["object"] too), or
    is an object, kept as the map of its own properties. *)

Inductive OptionsArg :=
| NotObject
| NullOptions
| Object (props : gmap jsstring JsValue).

(** [options.k] on a plain object. *)
Definition prop (props : gmap jsstring JsValue) (k : string) : JsValue :=
  default JUndefined (props !! js k).

(** [Object.prototype.hasOwnProperty.call(options, k)] *)
Definition hasOwnProperty (props : gmap jsstring JsValue) (k : string)
  : bool :=
  bool_decide (is_Some (props !! js k)).

(** [Number(v)]; [None] is NaN. *)
Definition to_number `{Runtime} (v : JsValue) : Thrown + option Z :=
  match v with
  | JUndefined => inr None
  | JNull => inr (Some 0%Z)
  | JBool b => inr (Some (if b then 1 else 0)%Z)
  | JNum n => inr (Some n)
  | JStr s => inr (StringToNumber s)
  | JArr _ | JObj _ => s <-! to_string v; inr (StringToNumber s)
  end.

(** ** The orchestrator *)

Section Translate.
Context `{Languages, Upstream, Runtime}.

(** The callback of [[options.from, options.to].forEach(...)]: a truthy,
    unsupported [lang] replaces the pending [error]. *)
Definition check_lang (error : option Thrown) (lang : JsValue)
  : Thrown + option Thrown :=
  if truthy lang && negb (isSupported lang) then
    shown <-! to_string lang;
    inr (Some (makeError 400
                 (js "The language '" ++ shown ++ js "' is not supported.")
                 None))
  else inr error.

(** Lines 27-33. *)
Definition validate (props : gmap jsstring JsValue) : Thrown + unit :=
  e1 <-! check_lang None (prop props "from");
  e2 <-! check_lang e1 (prop props "to");
  match e2 with
  | Some error => inl error
  | None => inr tt
  end.

(** What lines 36-38 leave behind: the normalised codes and the options
    object after [options.raw = Boolean(options.raw)]. *)
Record Normalized := {
  fromISO : IsoCode;
  toISO : IsoCode;
  options_after : gmap jsstring JsValue
}.

Definition normalize (props : gmap jsstring JsValue) : Normalized :=
  {| fromISO := getISOCode (if hasOwnProperty props "from"
                            then prop props "from" else JStr (js "auto"));
     toISO := getISOCode (if hasOwnProperty props "to"
                          then prop props "to" else JStr (js "fr"));
     options_after :=
       <[js "raw" := JBool (truthy (prop props "raw"))]> props |}.

(** Lines 23-38. *)
Definition prologue (options : OptionsArg) : Thrown + Normalized :=
  match options with
  | NullOptions => inl TypeError
  | NotObject => _ <-! validate ∅; inr (normalize ∅)
  | Object props => _ <-! validate props; inr (normalize props)
  end.

(** The caller's object once the prologue has run. *)
Definition caller_view (options : OptionsArg) (n : Normalized)
  : OptionsArg :=
  match options with
  | Object _ => Object (options_after n)
  | _ => options
  end.

Definition want_raw (n : Normalized) : bool :=
  truthy (prop (options_after n) "raw").

(** [`${fromISO}-${toISO}-${text}`] *)
Definition cacheKey (n : Normalized) (txt : jsstring) : jsstring :=
  iso_string (fromISO n) ++ js "-" ++ iso_string (toISO n) ++ js "-" ++ txt.

(** [Math.max(1, Number(options.maxChunkChars) || 4500)] *)
Definition maxChunkChars (n : Normalized) : Thrown + nat :=
  num <-! to_number (prop (options_after n) "maxChunkChars");
  inr (Z.to_nat (Z.max 1 (match num with
                          | Some z => if (z =? 0)%Z then 4500 else z
                          | None => 4500
                          end))).

(** [{ from: fromISO, to: toISO, raw: options.raw, maxChunkChars }] *)
Definition chunk_options (n : Normalized) (limit : nat) : OptionsArg :=
  Object (<[js "from" := iso_value (fromISO n)]>
          (<[js "to" := iso_value (toISO n)]>
           (<[js "raw" := JBool (want_raw n)]>
            (<[js "maxChunkChars" := JNum (Z.of_nat limit)]> ∅)))).

Definition push (arr v : JsValue) : JsValue :=
  match arr with
  | JArr elems => JArr (elems ++ [v])
  | _ => arr
  end.

(** Lines 77-82, the loop over [chunks]; [self] is the recursive call. *)
Fixpoint merge_chunks
    (self : jsstring -> OptionsArg -> World
            -> option ((Thrown + TranslateResult) * World))
    (sub : OptionsArg) (raw_wanted : bool) (i : nat)
    (merged : TranslateResult) (chunks : list jsstring) (w : World)
  : option ((Thrown + TranslateResult) * World) :=
  match chunks with
  | [] => Some (inr merged, w)
  | chunk :: rest =>
      match self chunk sub w with
      | None => None
      | Some (inl e, w') => Some (inl e, w')
      | Some (inr r, w') =>
          merge_chunks self sub raw_wanted (S i)
            {| text := text merged ++ text r;
               from := if i =? 0 then from r else from merged;
               raw := if raw_wanted then push (raw merged) (raw r)
                      else raw merged |}
            rest w'
      end
  end.

Definition merged_init (n : Normalized) : TranslateResult :=
  {| text := [];
     from := {| language := {| didYouMean := false;
                               iso := iso_value (fromISO n) |};
                from_text := Parser.no_suggestion |};
     raw := if want_raw n then JArr [] else JStr [] |}.

(** Lines 140-151. *)
Definition read_body (resp : Response) : Thrown + JsValue :=
  match body_json resp with
  | Some body => inr body
  | None =>
      match body_text resp with
      | None => inl TypeError
      | Some txt =>
          match JSON_parse txt with
          | Some body => inr body
          | None =>
              inl (makeError 502 (js "Unexpected translate response format")
                             (Some SyntaxError))
          end
      end
  end.

(** Lines 87-204: one request for a text that is not split.  The request
    is built between the token check and the [try] around the request, so
    a URIError of [querystring.stringify] leaves the call as it is. *)
Definition single (n : Normalized) (txt key : jsstring) (w : World)
  : (Thrown + TranslateResult) * World :=
  let '(token, w1) := await_token txt w in
  match token with
  | TokenFails message => (inl (Rejection message), w1)
  | TokenIsError | TokenIsFalsy =>
      (inl (makeError 503 (js "Failed to generate translate token") None), w1)
  | Token name value =>
      if negb (nonempty name) || negb (nonempty value) then
        (inl (makeError 503 (js "Failed to generate translate token") None),
         w1)
      else
        match Builder.requestOptions (fromISO n) (toISO n) txt name value with
        | inl e => (inl e, w1)
        | inr req =>
            let '(outcome, w2) := await_request req w1 in
            match outcome with
            | RequestFails message =>
                (inl (makeError 503
                        (js "Translate request failed: " ++ message)
                        (Some (Rejection message))), w2)
            | Responds resp =>
                if ((0 <? statusCode resp) && (400 <=? statusCode resp))%N
                then
                  (inl (makeError (statusCode resp)
                          (js "Translate request failed with status "
                           ++ num_to_string (Z.of_N (statusCode resp))) None),
                   w2)
                else
                  match (body <-! read_body resp;
                         Parser.parse_response (want_raw n)
                           (iso_value (fromISO n)) body) with
                  | inl e => (inl e, w2)
                  | inr result => (inr result, cache_set key result w2)
                  end
            end
        end
  end.

(** [async function translate(text, options)].  [fuel] bounds the depth of
    the recursive chunk calls; the third component of the answer is the
    caller's [options] after the call. *)
Fixpoint translate (fuel : nat) (txt : jsstring) (options : OptionsArg)
    (w : World) : option ((Thrown + TranslateResult) * World * OptionsArg) :=
  match fuel with
  | O => None
  | S fuel' =>
      match prologue options with
      | inl e => Some (inl e, w, options)
      | inr n =>
          let options' := caller_view options n in
          let key := cacheKey n txt in
          let '(cachedResult, w1) := cache_get key w in
          match cachedResult with
          | Some r => Some (inr r, w1, options')
          | None =>
              match maxChunkChars n with
              | inl e => Some (inl e, w1, options')
              | inr limit =>
                  match Chunk.chunkText txt limit with
                  | None => None
                  | Some chunks =>
                      if 1 <? length chunks then
                        match merge_chunks
                                (fun c o w' => fst <$> translate fuel' c o w')
                                (chunk_options n limit) (want_raw n) 0
                                (merged_init n) chunks w1 with
                        | None => None
                        | Some (inl e, w2) => Some (inl e, w2, options')
                        | Some (inr merged, w2) =>
                            Some (inr merged, cache_set key merged w2,
                                  options')
                        end
                      else
                        let '(res, w2) := single n txt key w1 in
                        Some (res, w2, options')
                  end
              end
          end
      end
  end.

End Translate.

(** ** The bulk warm-up: [loadLanguages] *)

(** [o[k] = v] where [o] is a plain object: the key ["__proto__"]
    addresses the prototype (replaced when [v] is an object, left alone
    when [v] is a string), so no own property appears. *)
Definition own_set {V} (k : jsstring) (v : V) (o : gmap jsstring V)
  : gmap jsstring V :=
  if bool_decide (k = js "__proto__") then o else <[k := v]> o.

Section LoadLanguages.
Context `{Languages, Upstream, Runtime}.

(** [`${lang}-auto-${word}`] *)
Definition warm_key (lang word : jsstring) : jsstring :=
  lang ++ js "-auto-" ++ word.

(** Lines 227-238, the loop over [wordsToLoad] for one language; [entries]
    is [translations[lang]]. *)
Fixpoint load_words (fuel : nat) (lang : JsValue) (shown : jsstring)
    (words : list JsValue) (entries : gmap jsstring jsstring) (w : World)
  : option ((Thrown + gmap jsstring jsstring) * World) :=
  match words with
  | [] => Some (inr entries, w)
  | word :: rest =>
      match to_string word with
      | inl e => Some (inl e, w)
      | inr wd =>
          let key := warm_key shown wd in
          let '(cachedResult, w1) := cache_get key w in
          match cachedResult with
          | Some r =>
              load_words fuel lang shown rest (own_set wd (text r) entries) w1
          | None =>
              match translate fuel wd (Object {[ js "to" := lang ]}) w1 with
              | None => None
              | Some (inl e, w2, _) => Some (inl e, w2)
              | Some (inr r, w2, _) =>
                  load_words fuel lang shown rest
                    (own_set wd (text r) entries) (cache_set key r w2)
              end
          end
      end
  end.

(** Lines 220-239, the loop over [languagesToLoad]; [langs] is the string
    of names gathered for the log line.  [translations[lang]] is written
    here with its final content: the source assigns [{}] first and fills
    that same object in the inner loop. *)
Fixpoint load_langs (fuel : nat) (languages words : list JsValue)
    (translations : gmap jsstring (gmap jsstring jsstring))
    (langs : jsstring) (w : World)
  : option ((Thrown + gmap jsstring (gmap jsstring jsstring) * jsstring)
            * World) :=
  match languages with
  | [] => Some (inr (translations, langs), w)
  | lang :: rest =>
      if negb (isSupported lang) then
        match to_string lang with
        | inl e => Some (inl e, w)
        | inr shown =>
            Some (inl (makeError 400
                         (js "Language '" ++ shown ++ js "' is not supported")
                         None), w)
        end
      else
        match to_string lang with
        | inl e => Some (inl e, w)
        | inr shown =>
            match load_words fuel lang shown words ∅ w with
            | None => None
            | Some (inl e, w') => Some (inl e, w')
            | Some (inr entries, w') =>
                load_langs fuel rest words
                  (own_set shown entries translations)
                  (langs ++ shown ++ js ", ") w'
            end
        end
  end.

(** [async function loadLanguages(languagesToLoad, wordsToLoad)]: the
    mapping it returns (its own properties) and the line it logs
    ([langs.slice(0, -2)] drops the last separator; code unit 34 is the
    double quote). *)
Definition loadLanguages (fuel : nat) (languagesToLoad wordsToLoad : JsValue)
    (w : World)
  : option ((Thrown + gmap jsstring (gmap jsstring jsstring) * jsstring)
            * World) :=
  match languagesToLoad, wordsToLoad with
  | JArr languages, JArr words =>
      match load_langs fuel languages words ∅ [] w with
      | Some (inr (translations, langs), w') =>
          Some (inr (translations,
                     js "The languages " ++ [34%N]
                     ++ take (length langs - 2) langs ++ [34%N]
                     ++ js " have been loaded successfully."), w')
      | other => other
      end
  | _, _ => Some (inl (makeError 400 (js "Parameters must be arrays") None), w)
  end.

End LoadLanguages.

(** ** The command loader: [buildPaths]

    A directory tree as [buildDirectoryTree] produces it: a file is its
    name, a directory an object [{ name, sub }].  [path.join] belongs to
    the Node runtime and enters as a parameter. *)

Inductive Entry :=
| File (name : jsstring)
| Dir (name : jsstring) (sub : list Entry).

Section Loader.
Variable pathJoin : jsstring -> jsstring -> jsstring.

(** The body of the loop of [buildPaths] for one element [elt]. *)
Fixpoint pathsOf (basePath : jsstring) (elt : Entry) : list jsstring :=
  match elt with
  | File name => [pathJoin basePath name]
  | Dir name sub => flat_map (pathsOf (pathJoin basePath name)) sub
  end.

(** [function buildPaths(basePath, directoryTree)] *)
Definition buildPaths (basePath : jsstring) (directoryTree : list Entry)
  : list jsstring :=
  flat_map (pathsOf basePath) directoryTree.

End Loader.

(** ** A sample environment

    A three-language table, a token provider and a transport that always
    answer the same, and encoders without percent-escapes (the sample texts
    hold unreserved characters only); as in Node, [stringify] throws at an
    unpaired surrogate.  Used to run [translate] on concrete calls. *)

Module Sample.

Definition codes : list jsstring := [js "auto"; js "en"; js "fr"].

Definition languages : Languages := {|
  isSupported v :=
    match v with
    | JStr s => bool_decide (s ∈ codes)
    | _ => false
    end;
  getISOCode v :=
    if truthy v then
      match v with
      | JStr s => if bool_decide (s ∈ codes) then Iso s else IsoNull
      | _ => IsoNull
      end
    else IsoFalse
|}.

Definition body : JsValue :=
  JArr [JArr [JArr [JStr (js "Bonjour"); JStr (js "Hello")]];
        JNull; JStr (js "en")].

Definition upstream (answer : JsValue) : Upstream := {|
  generate _ _ := Token (js "tk") (js "1");
  request _ _ :=
    Responds {| statusCode := 200; body_json := Some answer;
                body_text := None |};
  latency _ := 1%N
|}.

Definition show (v : JsValue) : jsstring :=
  match v with
  | JStr s => s
  | JNum _ | JBool _ => match to_string v with inr s => s | inl _ => [] end
  | _ => []
  end.

Definition pairs (kv : jsstring * JsValue) : list jsstring :=
  match kv.2 with
  | JArr elems => map (fun v => kv.1 ++ js "=" ++ show v) elems
  | v => [kv.1 ++ js "=" ++ show v]
  end.

Fixpoint join (sep : jsstring) (l : list jsstring) : jsstring :=
  match l with
  | [] => []
  | [x] => x
  | x :: rest => x ++ sep ++ join sep rest
  end.

(** Well-formed UTF-16: every surrogate is half of a pair. *)
Fixpoint well_formed (s : jsstring) : bool :=
  match s with
  | [] => true
  | c :: rest =>
      if ((55296 <=? c) && (c <=? 56319))%N then
        match rest with
        | c' :: rest' =>
            ((56320 <=? c') && (c' <=? 57343))%N && well_formed rest'
        | [] => false
        end
      else if ((56320 <=? c) && (c <=? 57343))%N then false
      else well_formed rest
  end.

Definition runtime : Runtime := {|
  stringify o :=
    let query := join (js "&") (concat (map pairs o)) in
    if well_formed query then Some query else None;
  form_encode o := join (js "&") (map (fun kv => kv.1 ++ js "=" ++ kv.2) o);
  JSON_parse _ := None;
  StringToNumber _ := None
|}.

Definition start : World := {| cache := ∅; trace := []; now := 0 |}.

Definition run (answer : JsValue) (txt : jsstring) (options : OptionsArg)
    (w : World) :=
  @translate languages (upstream answer) runtime 2 txt options w.

End Sample.

(** ** Vocabulary of the statements *)

(** What a state [(parts, current)] of the loop stands for. *)
Definition flat (st : list jsstring * jsstring) : jsstring :=
  concat st.1 ++ st.2.

(** Runs of whitespace, runs without whitespace, and chunks that fit the
    limit or are one run. *)
Definition all_space (s : jsstring) : bool := forallb is_space s.
Definition no_space (s : jsstring) : bool :=
  forallb (fun c => negb (is_space c)) s.
Definition is_run (s : jsstring) : bool := all_space s || no_space s.

Definition settled (limit : nat) (c : jsstring) : bool :=
  (length c <=? limit) || is_run c.

(** [pat] occurs in [s] at some offset. *)
Definition occurs (pat s : jsstring) : Prop :=
  exists i, Parser.starts_with pat (drop i s) = true.

(** [r] is not a code unit of [q]. *)
Definition avoids (r : code_unit) (q : jsstring) : bool :=
  forallb (fun p => negb (p =? r)%N) q.


Definition is_primitive (v : JsValue) : bool :=
  match v with JArr _ | JObj _ => false | _ => true end.

(** The table resolves every truthy code it supports, and both defaults. *)
Definition coherent `{Languages} : Prop :=
  (forall v, truthy v = true -> isSupported v = true ->
             exists code, getISOCode v = Iso code)
  /\ (exists code, getISOCode (JStr (js "auto")) = Iso code)
  /\ (exists code, getISOCode (JStr (js "fr")) = Iso code).

(** Every token but the last is non-empty. *)
Fixpoint inner_nonempty (tokens : list jsstring) : bool :=
  match tokens with
  | t :: (_ :: _) as rest => nonempty t && inner_nonempty rest
  | _ => true
  end.

(** A token the source rejects at line 89. *)
Definition token_invalid (token : TokenOutcome) : bool :=
  match token with
  | TokenIsError | TokenIsFalsy => true
  | Token name value => negb (nonempty name) || negb (nonempty value)
  | TokenFails _ => false
  end.

(** The call passes the prologue with [n], misses the cache and its text
    is not split. *)
Definition unsplit_miss `{Languages, Runtime} (options : OptionsArg)
    (n : Normalized) (txt : jsstring) (w : World) : Prop :=
  prologue options = inr n
  /\ Cache.get (cacheKey n txt) (now w) (cache w) = None
  /\ exists limit chunks,
       maxChunkChars n = inr limit
       /\ Chunk.chunkText txt limit = Some chunks
       /\ length chunks <= 1.

(** The call passes the prologue with [n], misses the cache and its text
    is split into [chunks] at [limit]. *)
Definition split_miss `{Languages, Runtime} (options : OptionsArg)
    (n : Normalized) (txt : jsstring) (w : World) (limit : nat)
    (chunks : list jsstring) : Prop :=
  prologue options = inr n
  /\ Cache.get (cacheKey n txt) (now w) (cache w) = None
  /\ maxChunkChars n = inr limit
  /\ Chunk.chunkText txt limit = Some chunks
  /\ 1 < length chunks.

(** The world after the cache lookup and the token call of an unsplit
    call. *)
Definition after_token `{Upstream} (key txt : jsstring) (w : World) : World :=
  (await_token txt (cache_get key w).2).2.

(** [rs] are the results of the chunk calls on [chunks], made in order
    from world [w] to world [w']. *)
Inductive chunk_runs
    (self : jsstring -> OptionsArg -> World
            -> option ((Thrown + TranslateResult) * World))
    (sub : OptionsArg)
  : World -> list jsstring -> list TranslateResult -> World -> Prop :=
| chunk_runs_nil w : chunk_runs self sub w [] [] w
| chunk_runs_cons w chunk r w1 chunks rs w2 :
    self chunk sub w = Some (inr r, w1) ->
    chunk_runs self sub w1 chunks rs w2 ->
    chunk_runs self sub w (chunk :: chunks) (r :: rs) w2.

(** An environment whose token provider and transport give fixed
    answers. *)
Module Scenario.

Definition upstream (token : TokenOutcome) (answer : TransportOutcome)
  : Upstream := {|
  generate _ _ := token;
  request _ _ := answer;
  latency _ := 1%N
|}.

Definition run (token : TokenOutcome) (answer : TransportOutcome)
    (txt : jsstring) (options : OptionsArg) (w : World) :=
  @translate Sample.languages (upstream token answer) Sample.runtime
    2 txt options w.

End Scenario.

(** The token provider hands an unsplit call a usable token, and the
    builder makes the request [req] with it (its URLs can be encoded). *)
Definition token_granted `{Languages, Upstream, Runtime} (n : Normalized)
    (txt : jsstring) (w : World) (req : Request) : Prop :=
  exists name value,
    generate (trace w ++ [CacheGet (cacheKey n txt)]) txt = Token name value
    /\ name <> [] /\ value <> []
    /\ Builder.requestOptions (fromISO n) (toISO n) txt name value = inr req.



(** What the transport answers to [req] in an unsplit call. *)
Definition transport_answer `{Upstream} (key txt : jsstring) (w : World)
    (req : Request) : TransportOutcome :=
  request (trace w ++ [CacheGet key; TokenCall txt]) req.

(** No object anywhere in [v] carries an own [toString] entry. *)
Fixpoint plain (v : JsValue) : bool :=
  match v with
  | JArr elems => forallb plain elems
  | JObj props =>
      negb (Builder.obj_has (js "toString") props)
      && forallb (fun kv => plain kv.2) props
  | _ => true
  end.

(** A segment of [body[0]]: an array whose first element is a string
    ([Some]) or [null] ([None]), followed by anything. *)
Definition segment (seg : option jsstring * list JsValue) : JsValue :=
  JArr (match seg.1 with Some s => JStr s | None => JNull end :: seg.2).

Definition fixed_keys : list jsstring :=
  [js "client"; js "sl"; js "tl"; js "hl"; js "dt"; js "ie"; js "oe";
   js "otf"; js "ssel"; js "tsel"; js "kc"; js "q"].

(** A world whose cache already holds the translation of ["Hello "]. *)
Definition warm_start : World :=
  {| cache := {[ js "auto-fr-Hello " :=
                   ({| text := js "Bonjour ";
                       from := {| language := {| didYouMean := true;
                                                 iso := JStr (js "en") |};
                                  from_text := Parser.no_suggestion |};
                       raw := JStr [] |}, 86400000%N) ]};
     trace := []; now := 0 |}.

(** Every entry of the cache expires at [T] or later. *)
Definition entries_outlive (T : N) (w : World) : Prop :=
  forall k v t, cache w !! k = Some (v, t) -> (T <= t)%N.

(** [w'] comes after [w]: time has not gone back, the history was only
    extended, no key was dropped, and a bound [T] on the expiry times that
    a write at the time of [w] would respect still holds. *)
Definition follows (w w' : World) : Prop :=
  (now w <= now w')%N
  /\ (exists events, trace w' = trace w ++ events)
  /\ (forall k, is_Some (cache w !! k) -> is_Some (cache w' !! k))
  /\ (forall T, (T <= now w + 86400000)%N ->
                entries_outlive T w -> entries_outlive T w').

(** The cache lookups of a warm-up over the languages [ls] and the words
    [ws], in the order the loops make them. *)
Definition warm_lookups (ls ws : list jsstring) : list Event :=
  concat (map (fun l => map (fun wd => CacheGet (warm_key l wd)) ws) ls).

(** The files of a tree, each with the names of the directories that lead
    to it followed by its own name, in depth-first order. *)
Fixpoint routesOf (elt : Entry) : list (list jsstring) :=
  match elt with
  | File name => [[name]]
  | Dir name sub => map (cons name) (flat_map routesOf sub)
  end.

Definition routes (directoryTree : list Entry) : list (list jsstring) :=
  flat_map routesOf directoryTree.

(** No code unit of [s] is the hyphen. *)
Definition hyphen_free (s : jsstring) : bool :=
  forallb (fun c => negb (c =? 45)%N) s.

(** A chunk within the limit. *)
Definition fits (limit : nat) (c : jsstring) : Prop := length c <= limit.

(** [entries] has an own property for each of [words]. *)
Definition covers (words : list JsValue) (entries : gmap jsstring jsstring)
  : Prop :=
  forall word wd, word ∈ words -> to_string word = inr wd ->
                  wd <> js "__proto__" -> is_Some (entries !! wd).

(** * Properties *)

(** ** Chunk reconstruction *)

Module ChunkFacts.
Import Chunk.

Lemma split_go_concat in_ws cur s :
  concat (split_go in_ws cur s) = cur ++ s.
Proof.
  revert in_ws cur.
  induction s as [|c s IH]; intros in_ws cur; simpl.
  - destruct in_ws; simpl; by rewrite ?app_nil_r.
  - destruct (is_space c), in_ws; simpl; rewrite IH;
      by rewrite <- ?app_assoc.
Qed.

Lemma split_ws_concat str : concat (split_ws str) = str.
Proof. unfold split_ws. by rewrite split_go_concat. Qed.

Lemma hard_split_flat fuel limit parts current st :
  hard_split fuel limit parts current = Some st ->
  flat st = concat parts ++ current.
Proof.
  revert parts current.
  induction fuel as [|fuel IH]; intros parts current; simpl.
  - destruct (limit <? length current); [done|].
    intros [= <-]. done.
  - destruct (limit <? length current).
    + intros Hs. apply IH in Hs. rewrite Hs.
      rewrite concat_app. simpl.
      rewrite app_nil_r, <- app_assoc. by rewrite take_drop.
    + intros [= <-]. done.
Qed.

Lemma hard_split_total fuel limit parts current :
  0 < limit -> length current <= fuel ->
  is_Some (hard_split fuel limit parts current).
Proof.
  intros Hlimit. revert parts current.
  induction fuel as [|fuel IH]; intros parts current Hlen; simpl.
  - destruct (Nat.ltb_spec limit (length current)); [lia | by eexists].
  - destruct (Nat.ltb_spec limit (length current)); [| by eexists].
    apply IH. rewrite length_drop. lia.
Qed.

Lemma step_flat limit st tok st' :
  step limit st tok = Some st' -> flat st' = flat st ++ tok.
Proof.
  destruct st as [parts current]. unfold step.
  destruct (_ && _).
  - intros Hs. apply hard_split_flat in Hs. rewrite Hs.
    unfold flat. simpl. rewrite concat_app. simpl. by rewrite app_nil_r.
  - intros [= <-]. unfold flat. simpl. by rewrite app_assoc.
Qed.

Lemma step_total limit st tok :
  0 < limit -> is_Some (step limit st tok).
Proof.
  intros Hlimit. destruct st as [parts current]. unfold step.
  destruct (_ && _); [| by eexists].
  by apply hard_split_total.
Qed.

Lemma loop_flat limit tokens st st' :
  loop limit st tokens = Some st' -> flat st' = flat st ++ concat tokens.
Proof.
  revert st.
  induction tokens as [|tok rest IH]; intros st; simpl.
  - intros [= <-]. by rewrite app_nil_r.
  - destruct (step limit st tok) as [st1|] eqn:Hstep; [|done].
    intros Hl. apply IH in Hl. rewrite Hl.
    apply step_flat in Hstep. rewrite Hstep. by rewrite <- app_assoc.
Qed.

Lemma loop_total limit tokens st :
  0 < limit -> is_Some (loop limit st tokens).
Proof.
  intros Hlimit. revert st.
  induction tokens as [|tok rest IH]; intros st; simpl.
  - by eexists.
  - destruct (step_total limit st tok Hlimit) as [st1 ->]. apply IH.
Qed.

Lemma finish_concat st : concat (finish st) = flat st.
Proof.
  destruct st as [parts [|c current]]; unfold finish, flat; simpl.
  - by rewrite app_nil_r.
  - rewrite concat_app. simpl. by rewrite app_nil_r.
Qed.

Lemma chunkText_total str limit :
  0 < limit -> is_Some (chunkText str limit).
Proof.
  intros Hlimit. unfold chunkText.
  destruct (length str <=? limit); [by eexists|].
  destruct (loop_total limit (split_ws str) ([], []) Hlimit) as [st ->].
  by eexists.
Qed.

(** *** Which chunks can exceed the limit

    The tokens of [split_ws] are runs of whitespace or runs without any.
    A chunk either fits the limit or is such a run on its own, and then
    chunking it again gives it back as a single chunk, which is what ends
    the recursion of [translate]. *)

Lemma split_go_runs (in_ws : bool) (cur s : jsstring) :
  (if in_ws then all_space cur else no_space cur) = true ->
  Forall (fun t => is_run t = true) (split_go in_ws cur s).
Proof.
  revert in_ws cur.
  induction s as [|c s IH]; intros in_ws cur Hcur; simpl.
  - destruct in_ws; repeat constructor; unfold is_run; rewrite ?Hcur;
      by rewrite ?orb_true_r.
  - destruct (is_space c) eqn:Hc, in_ws.
    + apply IH. unfold all_space in *. rewrite forallb_app, Hcur. simpl.
      by rewrite Hc.
    + constructor; [unfold is_run; by rewrite Hcur, orb_true_r|].
      apply IH. simpl. by rewrite Hc.
    + constructor; [unfold is_run; by rewrite Hcur|].
      apply IH. simpl. by rewrite Hc.
    + apply IH. unfold no_space in *. rewrite forallb_app, Hcur. simpl.
      by rewrite Hc.
Qed.

Lemma split_ws_runs str : Forall (fun t => is_run t = true) (split_ws str).
Proof. by apply split_go_runs. Qed.

Lemma split_go_no_space cur s :
  no_space s = true -> split_go false cur s = [cur ++ s].
Proof.
  revert cur. induction s as [|c s IH]; intros cur; simpl.
  - by rewrite app_nil_r.
  - intros [Hc Hs]%andb_true_iff. apply negb_true_iff in Hc. rewrite Hc.
    rewrite IH by done. by rewrite <- app_assoc.
Qed.

Lemma split_go_all_space cur s :
  all_space s = true -> split_go true cur s = [cur ++ s; []].
Proof.
  revert cur. induction s as [|c s IH]; intros cur; simpl.
  - by rewrite app_nil_r.
  - intros [Hc Hs]%andb_true_iff. rewrite Hc.
    rewrite IH by done. by rewrite <- app_assoc.
Qed.

Lemma hard_split_settled fuel limit parts current parts' current' :
  Forall (fun c => settled limit c = true) parts ->
  hard_split fuel limit parts current = Some (parts', current') ->
  Forall (fun c => settled limit c = true) parts'
  /\ length current' <= limit.
Proof.
  revert parts current.
  induction fuel as [|fuel IH]; intros parts current Hparts; simpl.
  - destruct (Nat.ltb_spec limit (length current)); [done|].
    intros [= <- <-]. done.
  - destruct (Nat.ltb_spec limit (length current)) as [Hlt|Hge].
    + apply IH. apply Forall_app. split; [done|].
      constructor; [|done]. unfold settled.
      rewrite length_take. apply orb_true_iff. left.
      apply Nat.leb_le. lia.
    + intros [= <- <-]. done.
Qed.

Lemma step_settled limit parts current tok parts' current' :
  Forall (fun c => settled limit c = true) parts ->
  settled limit current = true -> is_run tok = true ->
  step limit (parts, current) tok = Some (parts', current') ->
  Forall (fun c => settled limit c = true) parts'
  /\ settled limit current' = true.
Proof.
  intros Hparts Hcur Htok. unfold step.
  destruct (Nat.ltb_spec limit (length (current ++ tok))) as [Hlt|Hge];
    simpl.
  - destruct current as [|c current]; simpl.
    + intros [= <- <-]. split; [done|]. unfold settled.
      by rewrite Htok, orb_true_r.
    + intros Hs. apply hard_split_settled in Hs as [Hp Hc].
      * split; [done|]. unfold settled. apply orb_true_iff. left.
        by apply Nat.leb_le.
      * apply Forall_app. split; [done|]. by constructor.
  - intros [= <- <-]. split; [done|]. unfold settled.
    apply orb_true_iff. left. by apply Nat.leb_le.
Qed.

Lemma loop_settled limit tokens parts current parts' current' :
  Forall (fun t => is_run t = true) tokens ->
  Forall (fun c => settled limit c = true) parts ->
  settled limit current = true ->
  loop limit (parts, current) tokens = Some (parts', current') ->
  Forall (fun c => settled limit c = true) parts'
  /\ settled limit current' = true.
Proof.
  intros Htokens. revert parts current.
  induction Htokens as [|tok rest Htok _ IH]; intros parts current Hp Hc;
    cbn [loop].
  - intros [= <- <-]. done.
  - destruct (step limit (parts, current) tok) as [[p1 c1]|] eqn:Hstep;
      [|done].
    destruct (step_settled _ _ _ _ _ _ Hp Hc Htok Hstep) as [Hp1 Hc1].
    by apply IH.
Qed.

(** Every chunk fits the limit or is a single run. *)
Lemma chunkText_settled str limit chunks :
  chunkText str limit = Some chunks ->
  Forall (fun c => settled limit c = true) chunks.
Proof.
  unfold chunkText.
  destruct (Nat.leb_spec (length str) limit) as [Hle|Hgt].
  - intros [= <-]. constructor; [|done]. unfold settled.
    apply orb_true_iff. left. by apply Nat.leb_le.
  - destruct (loop limit ([], []) (split_ws str)) as [[parts current]|] eqn:Hl;
      [|done].
    intros [= <-].
    apply loop_settled in Hl as [Hp Hc];
      [| apply split_ws_runs | done | done].
    destruct current as [|c current]; simpl; [done|].
    apply Forall_app. split; [done|]. by constructor.
Qed.

(** Chunking a settled chunk again does not split it. *)
Lemma step_first limit tok :
  step limit ([], []) tok = Some ([], tok).
Proof. unfold step. simpl. by rewrite andb_false_r. Qed.

Lemma chunkText_settled_single limit c :
  settled limit c = true ->
  exists l, chunkText c limit = Some l /\ length l <= 1.
Proof.
  unfold settled, chunkText. intros Hs.
  destruct (Nat.leb_spec (length c) limit) as [Hle|Hgt].
  - eexists. split; [done|]. simpl. lia.
  - simpl in Hs. unfold is_run in Hs. apply orb_true_iff in Hs as [Hs|Hs].
    + destruct c as [|x c]; [simpl in Hgt; lia|].
      unfold split_ws. cbn [split_go].
      simpl in Hs. apply andb_true_iff in Hs as [Hx Hs]. rewrite Hx.
      rewrite split_go_all_space by done.
      cbn [loop]. rewrite !step_first. unfold step.
      rewrite app_nil_r.
      destruct (Nat.ltb_spec limit (length ([x] ++ c))) as [_|Hge];
        [|simpl in Hge, Hgt; lia].
      simpl. eexists. split; [done|]. simpl. lia.
    + unfold split_ws. rewrite split_go_no_space by done.
      cbn [loop]. rewrite step_first. simpl.
      destruct c; eexists; (split; [done|]); simpl; lia.
Qed.

End ChunkFacts.

(** C1. For every input string and every positive limit, [chunkText]
    returns, and its chunks concatenated in order are the input string
    itself, whitespace included. *)
Theorem chunkText_reconstruction (str : jsstring) (limit : nat) :
  0 < limit ->
  exists chunks,
    Chunk.chunkText str limit = Some chunks /\ concat chunks = str.
Proof.
  intros Hlimit.
  destruct (ChunkFacts.chunkText_total str limit Hlimit) as [chunks Hc].
  exists chunks. split; [done|].
  unfold Chunk.chunkText in Hc.
  destruct (length str <=? limit).
  - injection Hc as <-. simpl. by rewrite app_nil_r.
  - destruct (Chunk.loop limit ([], []) (Chunk.split_ws str)) as [st|] eqn:Hl;
      [|done].
    injection Hc as <-.
    rewrite ChunkFacts.finish_concat.
    apply ChunkFacts.loop_flat in Hl. rewrite Hl.
    unfold flat. simpl. apply ChunkFacts.split_ws_concat.
Qed.

Lemma chunkText_reconstruction_witness :
  0 < 7 /\
  exists chunks,
    Chunk.chunkText (js "hello  big world") 7 = Some chunks
    /\ concat chunks = js "hello  big world".
Proof.
  split; [lia|]. apply (chunkText_reconstruction (js "hello  big world") 7). lia.
Defined.

(** C2. A first token longer than the limit is never hard-split: the loop
    only splits a token that arrives while [current] is non-empty.  At
    limit 5 the twelve-character first word comes out as one chunk, and
    [translate] submits it whole. *)
Theorem chunkText_overlong_first_token :
  Chunk.chunkText (js "abcdefghijkl mn") 5
  = Some [js "abcdefghijkl"; js " mn"]
  /\ length (js "abcdefghijkl") = 12
  /\ exists r w' o',
       Sample.run Sample.body (js "abcdefghijkl mn")
         (Object {[ js "maxChunkChars" := JNum 5 ]}) Sample.start
       = Some (inr r, w', o')
       /\ trace w' !! 2 = Some (TokenCall (js "abcdefghijkl")).
Proof.
  split; [reflexivity|]. split; [reflexivity|].
  eexists _, _, _. split; reflexivity.
Qed.

(** ** The response parser *)

Module ParserFacts.
Import Parser.

Lemma strict_eq_eq a b : strict_eq a b = true -> a = b.
Proof.
  destruct a, b; simpl; try done.
  - intros Hb. f_equal. by apply eqb_prop.
  - intros Hn. f_equal. by apply Z.eqb_eq.
  - intros Hs. f_equal. by apply bool_decide_eq_true in Hs.
Qed.

(** Replacing matches by a code unit foreign to [q] creates no match of
    [q] at the front of the output. *)
Lemma starts_with_replace_go pat r q s :
  avoids r q = true ->
  starts_with q (replace_go pat [r] 0 s) = true ->
  starts_with q s = true.
Proof.
  revert q. induction s as [|c s IH]; intros [|p q] Hq; simpl; try done.
  apply andb_true_iff in Hq as [Hp Hq].
  destruct (starts_with pat (c :: s)); simpl.
  - intros [Hpr _]%andb_true_iff. by rewrite Hpr in Hp.
  - intros [Hpc Hrest]%andb_true_iff. rewrite Hpc. simpl. by apply IH.
Qed.

Lemma occurs_cons q c s : occurs q s -> occurs q (c :: s).
Proof. intros [i Hi]. by exists (S i). Qed.

Lemma occurs_replace_go pat r q s skip i :
  q <> [] -> avoids r q = true ->
  starts_with q (drop i (replace_go pat [r] skip s)) = true ->
  occurs q s.
Proof.
  intros Hne Hq. revert skip i.
  induction s as [|c s IH]; intros skip i.
  - simpl. rewrite drop_nil. by destruct q.
  - destruct skip as [|k]; cbn [replace_go].
    + destruct (starts_with pat (c :: s)) eqn:Hm.
      * destruct i as [|i]; simpl.
        -- destruct q as [|p q]; [done|]. simpl in Hq |- *.
           apply andb_true_iff in Hq as [Hp _].
           intros [Hpr _]%andb_true_iff. by rewrite Hpr in Hp.
        -- intros Hi. apply occurs_cons. by eapply IH.
      * destruct i as [|i].
        -- rewrite drop_0. intros Hi. exists 0. rewrite drop_0.
           apply (starts_with_replace_go pat r); [done|].
           cbn [replace_go]. by rewrite Hm.
        -- simpl. intros Hi. apply occurs_cons. by eapply IH.
    + intros Hi. apply occurs_cons. by eapply IH.
Qed.

(** After [replace_all pat [r]] no match of [pat] is left. *)
Lemma replace_go_clears pat r s skip i :
  pat <> [] -> avoids r pat = true ->
  starts_with pat (drop i (replace_go pat [r] skip s)) = false.
Proof.
  intros Hne Hr. revert skip i.
  induction s as [|c s IH]; intros skip i.
  - simpl. rewrite drop_nil. by destruct pat.
  - destruct skip as [|k]; cbn [replace_go]; [|apply IH].
    destruct (starts_with pat (c :: s)) eqn:Hm.
    + destruct i as [|i]; simpl; [|apply IH].
      destruct pat as [|p pat]; [done|]. simpl in Hr |- *.
      apply andb_true_iff in Hr as [Hp _].
      apply negb_true_iff in Hp. by rewrite Hp.
    + destruct i as [|i]; [|simpl; apply IH].
      rewrite drop_0.
      destruct (starts_with pat (c :: replace_go pat [r] 0 s)) eqn:Ho;
        [|done].
      rewrite <- Hm. symmetry.
      apply (starts_with_replace_go pat r); [done|].
      cbn [replace_go]. by rewrite Hm.
Qed.

Lemma replace_all_clears pat r s :
  pat <> [] -> avoids r pat = true -> ~ occurs pat (replace_all pat [r] s).
Proof.
  intros Hne Hr [i Hi]. unfold replace_all in Hi.
  by rewrite replace_go_clears in Hi.
Qed.

(** Neither marker survives [rewrite_markers]. *)
Lemma rewrite_markers_clean str :
  ~ occurs (js "<b><i>") (rewrite_markers str)
  /\ ~ occurs (js "</i></b>") (rewrite_markers str).
Proof.
  unfold rewrite_markers. split.
  - intros [i Hi]. unfold replace_all at 1 in Hi.
    apply (occurs_replace_go _ 93%N) in Hi; [|done|done].
    by apply (replace_all_clears (js "<b><i>") 91%N) in Hi.
  - by apply (replace_all_clears (js "</i></b>") 93%N).
Qed.

End ParserFacts.

Lemma opt_index_array body i elems :
  opt_index body i = JArr elems -> index body i = inr (JArr elems).
Proof. unfold opt_index. destruct (index body i); [done|]. by intros ->. Qed.

Lemma strict_eq_iso d c : strict_eq d (iso_value c) = false <-> d <> iso_value c.
Proof.
  split.
  - intros Hs ->. by destruct c; simpl in Hs; try case_bool_decide.
  - intros Hne. destruct (strict_eq d (iso_value c)) eqn:Hs; [|done].
    by apply ParserFacts.strict_eq_eq in Hs.
Qed.

(** C5. A decoded body whose [7][0] is truthy but not a string makes the
    parser throw: [str.replace] is not a function.  The error is a bare
    TypeError, without a code, and [translate] passes it on to its caller
    after the token call and the request. *)
Theorem parse_response_throws_on_untyped_suggestion :
  let body :=
    JArr [JNull; JNull; JNull; JNull; JNull; JNull; JNull; JArr [JNum 1]] in
  Parser.parse_response false (JStr (js "auto")) body = inl TypeError
  /\ error_code TypeError = None
  /\ exists w' o',
       Sample.run body (js "Hello") (Object ∅) Sample.start
       = Some (inl TypeError, w', o')
       /\ cache w' = ∅.
Proof.
  repeat split; try reflexivity.
  eexists _, _. split; reflexivity.
Qed.

(** The text loop throws as well when a segment holds an object that
    shadows [toString]: [result.text += obj[0]] cannot convert it. *)
Example extract_text_throws_on_shadowed_toString :
  Parser.extract_text
    (JArr [JArr [JArr [JObj [(js "toString", JNum 1)]]]]) = inl TypeError.
Proof. reflexivity. Qed.

(** C6, as stated, fails on a falsy detected value: with [""] at
    [8][0][0] the detected value is [""], which differs from the requested
    ["en"], yet the flag stays unset and the requested code is reported
    (index [2], which holds ["fr"], is not consulted either). *)
Lemma detection_counterexample :
  let body :=
    JArr [JNull; JNull; JStr (js "fr"); JNull; JNull; JNull; JNull; JNull;
          JArr [JArr [JStr []]]] in
  let requested := JStr (js "en") in
  exists r,
    Parser.parse_response false requested body = inr r
    /\ Parser.detectedIso body requested = JStr []
    /\ JStr [] <> requested
    /\ didYouMean (language (from r)) = false
    /\ iso (language (from r)) = requested.
Proof. eexists. repeat split; try reflexivity. done. Qed.

(** C6, amended. The detected value is the first of [8][0][0], [2] and the
    requested source that is neither null nor undefined.  When it is truthy
    and differs from the requested source, [didYouMean] is true and [iso]
    is the detected value; when it is falsy or equal to the requested
    source, [didYouMean] is false and [iso] is the requested code. *)
Theorem detection_flag (raw_wanted : bool) (requested : IsoCode)
    (body : JsValue) (r : TranslateResult) :
  Parser.parse_response raw_wanted (iso_value requested) body = inr r ->
  let nested := opt_index (opt_index (opt_index body 8) 0) 0 in
  let top := opt_index body 2 in
  let detected := Parser.detectedIso body (iso_value requested) in
  detected = (if nullish nested then
                if nullish top then iso_value requested else top
              else nested)
  /\ (truthy detected = true -> detected <> iso_value requested ->
      didYouMean (language (from r)) = true
      /\ iso (language (from r)) = detected)
  /\ (truthy detected = false \/ detected = iso_value requested ->
      didYouMean (language (from r)) = false
      /\ iso (language (from r)) = iso_value requested).
Proof.
  unfold Parser.parse_response. intros Hr.
  destruct (Parser.extract_text body) as [|txt]; [done|].
  destruct (Parser.spelling body) as [|sugg]; [done|].
  simpl in Hr. injection Hr as <-. simpl.
  unfold Parser.detect_language.
  set (d := Parser.detectedIso body (iso_value requested)).
  split; [done|]. split.
  - intros Ht Hne. apply strict_eq_iso in Hne. by rewrite Ht, Hne.
  - intros [Hf|Heq].
    + by rewrite Hf.
    + destruct (strict_eq d (iso_value requested)) eqn:Hs.
      * rewrite andb_false_r. simpl. split; [done|].
        by destruct (truthy d).
      * by apply strict_eq_iso in Hs.
Qed.

Lemma detection_flag_witness :
  let body := JArr [JArr [JArr [JStr (js "Hello")]]; JNull; JStr (js "fr")] in
  let r := {| text := js "Hello";
              from := {| language := {| didYouMean := true;
                                        iso := JStr (js "fr") |};
                         from_text := Parser.no_suggestion |};
              raw := JStr [] |} in
  Parser.parse_response false (iso_value (Iso (js "auto"))) body = inr r
  /\ didYouMean (language (from r)) = true
  /\ iso (language (from r)) = JStr (js "fr").
Proof.
  intros body r. split; [reflexivity|].
  destruct (detection_flag false (Iso (js "auto")) body r eq_refl)
    as (_ & Hdiffers & _).
  apply Hdiffers; [reflexivity | discriminate].
Defined.

(** C7. When index [7] holds an array whose first element is a non-empty
    string, the parser stores that string with every [<b><i>] rewritten to
    [[] and every [</i></b>] to []] (no marker is left), sets
    [autoCorrected] exactly when [7][5] is the boolean [true], and sets
    exactly one of [autoCorrected] and [didYouMean]. *)
Theorem spelling_flags (body : JsValue) (elems : list JsValue)
    (str : jsstring) :
  opt_index body 7 = JArr elems ->
  elems !! 0 = Some (JStr str) ->
  str <> [] ->
  exists info,
    Parser.spelling body = inr info
    /\ (forall raw_wanted fromISO r,
          Parser.parse_response raw_wanted fromISO body = inr r ->
          from_text (from r) = info)
    /\ value info = Parser.rewrite_markers str
    /\ ~ occurs (js "<b><i>") (value info)
    /\ ~ occurs (js "</i></b>") (value info)
    /\ (autoCorrected info = true <-> elems !! 5 = Some (JBool true))
    /\ autoCorrected info = negb (text_didYouMean info).
Proof.
  intros H7 H0 Hne.
  assert (Hs : exists info, Parser.spelling body = inr info
            /\ value info = Parser.rewrite_markers str
            /\ (autoCorrected info = true <-> elems !! 5 = Some (JBool true))
            /\ autoCorrected info = negb (text_didYouMean info)).
  { unfold Parser.spelling. rewrite H7.
    rewrite (opt_index_array _ _ _ H7). simpl. rewrite H0. simpl.
    destruct str as [|c str]; [done|]. simpl.
    destruct (elems !! 5) as [[| |[|]| | | |]|]; simpl;
      eexists; (split; [reflexivity|]); simpl; repeat split; done. }
  destruct Hs as (info & Hs & Hv & Hflag & Hone).
  exists info. split; [done|]. split.
  - intros raw_wanted fromISO r. unfold Parser.parse_response.
    destruct (Parser.extract_text body); [done|]. rewrite Hs. simpl.
    by intros [= <-].
  - rewrite Hv. pose proof (ParserFacts.rewrite_markers_clean str) as [? ?].
    done.
Qed.

Lemma spelling_flags_witness :
  exists info,
    Parser.spelling
      (JArr [JNull; JNull; JNull; JNull; JNull; JNull; JNull;
             JArr [JStr (js "<b><i>hello</i></b> world"); JNull; JNull;
                   JNull; JNull; JBool true]]) = inr info
    /\ value info = js "[hello] world"
    /\ autoCorrected info = true
    /\ text_didYouMean info = false.
Proof.
  destruct (spelling_flags
      (JArr [JNull; JNull; JNull; JNull; JNull; JNull; JNull;
             JArr [JStr (js "<b><i>hello</i></b> world"); JNull; JNull;
                   JNull; JNull; JBool true]])
      [JStr (js "<b><i>hello</i></b> world"); JNull; JNull;
       JNull; JNull; JBool true]
      (js "<b><i>hello</i></b> world"))
    as (info & Hs & _); [reflexivity | reflexivity | done |].
  exists info. split; [exact Hs|].
  injection Hs as <-. repeat split; reflexivity.
Defined.

(** ** The orchestrator *)

Section TranslateFacts.
Context `{Languages, Upstream, Runtime}.

(** A live entry is served by [cache.get]. *)
Lemma Cache_get_Some key now0 data v :
  Cache.get key now0 data = Some v ->
  exists t, data !! key = Some (v, t) /\ (now0 <= t)%N.
Proof.
  unfold Cache.get. destruct (data !! key) as [[v' t]|]; [|done].
  destruct (N.leb_spec now0 t); [|done].
  intros [= ->]. by exists t.
Qed.

Lemma single_cached n txt key w r w' :
  single n txt key w = (inr r, w') ->
  exists t, cache w' !! key = Some (r, t).
Proof.
  unfold single, await_token, await_request.
  destruct (generate (trace w) txt) as [m| | |name value]; try done.
  destruct (negb (nonempty name) || negb (nonempty value)); [done|].
  destruct (Builder.requestOptions _ _ _ _ _) as [e|req]; [done|].
  cbn [trace].
  destruct (request _ _) as [m|resp]; [done|].
  destruct (_ && _)%N; [done|].
  destruct (bind_throw _ _) as [e|result]; [done|].
  intros [= <- <-]. unfold cache_set, Cache.set. cbn [cache].
  eexists. apply lookup_insert_eq.
Qed.

(** A call that succeeds leaves its result in the cache under its key. *)
Lemma translate_success_cached fuel txt options w n r w1 o1 :
  prologue options = inr n ->
  translate fuel txt options w = Some (inr r, w1, o1) ->
  exists t, cache w1 !! cacheKey n txt = Some (r, t).
Proof.
  intros Hn. destruct fuel as [|fuel]; [done|].
  cbn [translate]. rewrite Hn. unfold cache_get.
  destruct (Cache.get _ _ _) as [cached|] eqn:Hget.
  - intros [= <- <- _]. cbn [cache].
    apply Cache_get_Some in Hget as (t & Ht & _). by exists t.
  - destruct (maxChunkChars n) as [e|limit]; [done|].
    destruct (Chunk.chunkText txt limit) as [chunks|]; [|done].
    destruct (1 <? length chunks).
    + destruct (merge_chunks _ _ _ _ _ _ _) as [[[e|merged] w2]|]; try done.
      intros [= <- <- _]. unfold cache_set, Cache.set. cbn [cache].
      eexists. apply lookup_insert_eq.
    + destruct (single _ _ _ _) as [[e|res] w2] eqn:Hsingle; [done|].
      intros [= <- <- _]. by eapply single_cached.
Qed.

(** The path of a call that misses the cache and is not split. *)
Lemma translate_unsplit fuel txt options w n limit chunks :
  prologue options = inr n ->
  Cache.get (cacheKey n txt) (now w) (cache w) = None ->
  maxChunkChars n = inr limit ->
  Chunk.chunkText txt limit = Some chunks ->
  length chunks <= 1 ->
  let out := single n txt (cacheKey n txt) (cache_get (cacheKey n txt) w).2 in
  translate (S fuel) txt options w
  = Some (out.1, out.2, caller_view options n).
Proof.
  intros Hn Hmiss Hlimit Hchunks Hone. cbn [translate].
  rewrite Hn. unfold cache_get. rewrite Hmiss, Hlimit, Hchunks.
  destruct (Nat.ltb_spec 1 (length chunks)) as [?|_]; [lia|].
  cbn [snd]. by destruct (single _ _ _ _).
Qed.



(** *** Termination: the recursion of [translate] is two calls deep *)

Lemma maxChunkChars_positive n limit :
  maxChunkChars n = inr limit -> 1 <= limit.
Proof.
  unfold maxChunkChars. destruct (to_number _) as [e|num]; [done|].
  simpl. intros [= <-]. lia.
Qed.

(** A chunk call computes the limit it was given. *)
Lemma maxChunkChars_chunk_options n limit n' :
  1 <= limit ->
  prologue (chunk_options n limit) = inr n' ->
  maxChunkChars n' = inr limit.
Proof.
  intros Hlimit. unfold chunk_options, prologue.
  destruct (validate _); [done|]. simpl. intros [= <-].
  unfold maxChunkChars, normalize, prop. cbn [options_after].
  rewrite !lookup_insert_ne by done. rewrite lookup_insert_eq. simpl.
  f_equal. destruct (Z.eqb_spec (Z.of_nat limit) 0); lia.
Qed.

Lemma translate_chunk_total fuel chunk n limit w :
  1 <= limit ->
  settled limit chunk = true ->
  is_Some (translate (S fuel) chunk (chunk_options n limit) w).
Proof.
  intros Hlimit Hsettled. cbn [translate].
  destruct (prologue (chunk_options n limit)) as [e|n'] eqn:Hn';
    [by eexists|].
  unfold cache_get. destruct (Cache.get _ _ _); [by eexists|].
  rewrite (maxChunkChars_chunk_options _ _ _ Hlimit Hn').
  destruct (ChunkFacts.chunkText_settled_single _ _ Hsettled)
    as (l & -> & Hl).
  destruct (Nat.ltb_spec 1 (length l)); [lia|].
  destruct (single _ _ _ _). by eexists.
Qed.

Lemma merge_chunks_total self sub raw_wanted i merged chunks w :
  (forall c w', c ∈ chunks -> is_Some (self c sub w')) ->
  is_Some (merge_chunks self sub raw_wanted i merged chunks w).
Proof.
  revert i merged w.
  induction chunks as [|c rest IH]; intros i merged w Hself; simpl.
  - by eexists.
  - destruct (Hself c w) as [[[e|r] w'] ->]; [by left | by eexists |].
    apply IH. intros c' w'' Hc'. apply Hself. by right.
Qed.

(** Every call returns once [fuel] allows two levels. *)
Lemma translate_total fuel txt options w :
  is_Some (translate (S (S fuel)) txt options w).
Proof.
  remember (S fuel) as fuel' eqn:Hfuel. cbn [translate].
  destruct (prologue options) as [e|n]; [by eexists|].
  unfold cache_get. destruct (Cache.get _ _ _); [by eexists|].
  destruct (maxChunkChars n) as [e|limit] eqn:Hlimit; [by eexists|].
  apply maxChunkChars_positive in Hlimit.
  destruct (ChunkFacts.chunkText_total txt limit Hlimit) as [chunks Hchunks].
  rewrite Hchunks.
  destruct (1 <? length chunks).
  - match goal with
    | |- context [merge_chunks ?self ?sub ?rw ?i ?m ?cs ?w0] =>
        destruct (merge_chunks_total self sub rw i m cs w0)
          as [[[e|merged] w2] ->]
    end; [| by eexists..].
    intros c w' Hc. subst fuel'.
    apply ChunkFacts.chunkText_settled in Hchunks.
    rewrite Forall_forall in Hchunks.
    destruct (translate_chunk_total fuel c n limit w' Hlimit (Hchunks c Hc))
      as [x ->].
    by eexists.
  - destruct (single _ _ _ _). by eexists.
Qed.

(** The caller's object after a call is decided by the prologue. *)
Lemma translate_caller_view fuel txt options w res w' o' :
  translate fuel txt options w = Some (res, w', o') ->
  o' = match prologue options with
       | inl _ => options
       | inr n => caller_view options n
       end.
Proof.
  destruct fuel as [|fuel]; [done|]. cbn [translate].
  destruct (prologue options) as [e|n]; [by intros [= _ _ <-]|].
  unfold cache_get. destruct (Cache.get _ _ _); [by intros [= _ _ <-]|].
  destruct (maxChunkChars n); [by intros [= _ _ <-]|].
  destruct (Chunk.chunkText _ _); [|done].
  destruct (1 <? length _).
  - destruct (merge_chunks _ _ _ _ _ _ _) as [[[e|merged] w2]|];
      [by intros [= _ _ <-].. | done].
  - destruct (single _ _ _ _). by intros [= _ _ <-].
Qed.

End TranslateFacts.

(** C3. Two calls with the same normalised codes and text: when the first
    succeeded and the entry it left has not expired at the time [now2] of
    the second, the second returns the same result, and its only
    interaction is the cache lookup (no token, no request). *)
Theorem cache_idempotence `{Languages, Upstream, Runtime}
    (fuel1 fuel2 : nat) (txt : jsstring) (options1 options2 : OptionsArg)
    (n1 n2 : Normalized) (w w1 : World) (r : TranslateResult)
    (o1 : OptionsArg) (now2 : N) :
  translate fuel1 txt options1 w = Some (inr r, w1, o1) ->
  prologue options1 = inr n1 ->
  prologue options2 = inr n2 ->
  fromISO n1 = fromISO n2 ->
  toISO n1 = toISO n2 ->
  (forall v t, cache w1 !! cacheKey n1 txt = Some (v, t) -> (now2 <= t)%N) ->
  translate (S fuel2) txt options2
    {| cache := cache w1; trace := trace w1; now := now2 |}
  = Some (inr r,
          {| cache := cache w1;
             trace := trace w1 ++ [CacheGet (cacheKey n1 txt)];
             now := now2 |},
          caller_view options2 n2).
Proof.
  intros Hfirst Hn1 Hn2 Hfrom Hto Hlive.
  destruct (translate_success_cached _ _ _ _ _ _ _ _ Hn1 Hfirst) as [t Ht].
  assert (Hkey : cacheKey n2 txt = cacheKey n1 txt).
  { unfold cacheKey. by rewrite Hfrom, Hto. }
  cbn [translate]. rewrite Hn2, Hkey. unfold cache_get, Cache.get.
  cbn [cache trace now]. rewrite Ht.
  destruct (N.leb_spec now2 t) as [_|Hlt]; [done|].
  specialize (Hlive _ _ Ht). lia.
Qed.

Lemma cache_idempotence_witness :
  exists r w1 o1,
    Sample.run Sample.body (js "Hello") (Object ∅) Sample.start
    = Some (inr r, w1, o1)
    /\ @translate Sample.languages (Sample.upstream Sample.body)
         Sample.runtime 1 (js "Hello")
         (Object {[ js "from" := JStr (js "auto"); js "to" := JStr (js "fr") ]})
         {| cache := cache w1; trace := trace w1; now := 5000 |}
       = Some (inr r,
               {| cache := cache w1;
                  trace := trace w1 ++ [CacheGet (js "auto-fr-Hello")];
                  now := 5000 |},
               Object {[ js "from" := JStr (js "auto");
                         js "to" := JStr (js "fr");
                         js "raw" := JBool false ]}).
Proof.
  destruct (Sample.run Sample.body (js "Hello") (Object ∅) Sample.start)
    as [[[[e|r] w1] o1]|] eqn:Hrun;
    try (vm_compute in Hrun; discriminate).
  exists r, w1, o1. split; [reflexivity|].
  pose proof Hrun as Hval. vm_compute in Hval. injection Hval as Hr Hw Ho.
  etransitivity.
  - eapply (@cache_idempotence Sample.languages (Sample.upstream Sample.body)
              Sample.runtime 2 0 (js "Hello") (Object ∅)).
    + exact Hrun.
    + reflexivity.
    + reflexivity.
    + reflexivity.
    + reflexivity.
    + intros v t Hv. rewrite <- Hw in Hv. vm_compute in Hv.
      injection Hv as _ <-. done.
  - reflexivity.
Defined.

Lemma to_string_primitive v :
  is_primitive v = true -> exists s, to_string v = inr s.
Proof. destruct v as [| |[|]| | | |]; simpl; try done; by eexists. Qed.



(** ** The request builder *)

Module BuilderFacts.
Import Builder.


Lemma assoc_obj_overwrite_ne k name v o :
  k <> name -> assoc k (obj_overwrite name v o) = assoc k o.
Proof.
  intros Hne. induction o as [|[k' v'] o IH]; [done|]. simpl.
  case_bool_decide as Hn; simpl.
  - subst k'. by rewrite !bool_decide_eq_false_2.
  - by rewrite IH.
Qed.

Lemma assoc_app_ne k name v o :
  k <> name -> assoc k (o ++ [(name, v)]) = assoc k o.
Proof.
  intros Hne. induction o as [|[k' v'] o IH]; simpl.
  - by rewrite bool_decide_eq_false_2.
  - by rewrite IH.
Qed.

(** Setting another key leaves the entry of [k] alone. *)
Lemma assoc_obj_set_ne k name v o :
  k <> name -> assoc k (obj_set name v o) = assoc k o.
Proof.
  intros Hne. unfold obj_set.
  destruct (obj_has name o); [by apply assoc_obj_overwrite_ne|].
  destruct (is_array_index name); [|by apply assoc_app_ne].
  simpl. by rewrite bool_decide_eq_false_2.
Qed.





End BuilderFacts.



(** The text made of one unpaired surrogate: the token is asked for, the
    URL encoder throws, no request is made and nothing is cached. *)
Lemma unpaired_surrogate_demo :
  exists w',
    Sample.run Sample.body [55357%N] (Object ∅) Sample.start
    = Some (inl URIError, w', Object {[ js "raw" := JBool false ]})
    /\ trace w' = [CacheGet (js "auto-fr-" ++ [55357%N]); TokenCall [55357%N]]
    /\ cache w' = ∅.
Proof.
  destruct (Sample.run _ _ _ _) as [[[[e|r] w'] o']|] eqn:Hrun;
    try (vm_compute in Hrun; discriminate).
  vm_compute in Hrun. injection Hrun as <- <- <-.
  eexists. split; [reflexivity|]. split; reflexivity.
Qed.

(** C9, as stated, fails: an own [from] that is the empty string skips
    validation (it is falsy) and is not defaulted (it is an own property);
    [getISOCode] answers [false], the call goes on, looks up the key
    ["false-fr-Hello"] and sends [sl=false]. *)
Lemma unresolved_code_counterexample :
  @getISOCode Sample.languages (JStr []) = IsoFalse
  /\ exists r w' o',
       Sample.run Sample.body (js "Hello") (Object {[ js "from" := JStr [] ]})
         Sample.start = Some (inr r, w', o')
       /\ trace w'
          = [CacheGet (js "false-fr-Hello");
             TokenCall (js "Hello");
             TransportCall
               (GET (js ("https://translate.google.com/translate_a/single"
                         ++ "?client=gtx&sl=false&tl=fr&hl=fr"
                         ++ "&dt=at&dt=bd&dt=ex&dt=ld&dt=md&dt=qca&dt=rw"
                         ++ "&dt=rm&dt=ss&dt=t&ie=UTF-8&oe=UTF-8&otf=1"
                         ++ "&ssel=0&tsel=0&kc=7&q=Hello&tk=1")));
             CacheSet (js "false-fr-Hello")].
Proof. split; [reflexivity|]. eexists _, _, _. split; reflexivity. Qed.

(** C9, amended. [translate] does not look at what [getISOCode] returns;
    its validation is [isSupported] on truthy [from]/[to].  With a coherent
    table and [from]/[to] that, where present, are truthy primitives, the
    prologue either throws an error of code 400 or hands ISO strings to
    the cache key and the request parameters. *)
Theorem resolved_codes `{Languages} (props : gmap jsstring JsValue) :
  coherent ->
  is_primitive (prop props "from") = true ->
  is_primitive (prop props "to") = true ->
  (hasOwnProperty props "from" = true -> truthy (prop props "from") = true) ->
  (hasOwnProperty props "to" = true -> truthy (prop props "to") = true) ->
  (exists e, prologue (Object props) = inl e /\ error_code e = Some 400%N)
  \/ (exists n f t,
        prologue (Object props) = inr n
        /\ fromISO n = Iso f /\ toISO n = Iso t
        /\ forall txt, cacheKey n txt = f ++ js "-" ++ t ++ js "-" ++ txt).
Proof.
  intros (Hres & [a Ha] & [b Hb]) Hpf Hpt Hfrom Hto.
  destruct (to_string_primitive _ Hpf) as [sf Hsf].
  destruct (to_string_primitive _ Hpt) as [st Hst].
  unfold prologue, validate, check_lang.
  destruct (truthy (prop props "to")) eqn:Htt;
    destruct (isSupported (prop props "to")) eqn:Hts;
    destruct (truthy (prop props "from")) eqn:Hft;
    destruct (isSupported (prop props "from")) eqn:Hfs;
    simpl; rewrite ?Hsf, ?Hst; simpl;
    try (left; eexists; split; reflexivity).
  all: right.
  all: assert (Hf : exists f, getISOCode (if hasOwnProperty props "from"
                     then prop props "from" else JStr (js "auto")) = Iso f)
         by (destruct (hasOwnProperty props "from");
             [try (by apply Hres); by specialize (Hfrom eq_refl) | by eexists]).
  all: assert (Ht : exists t, getISOCode (if hasOwnProperty props "to"
                     then prop props "to" else JStr (js "fr")) = Iso t)
         by (destruct (hasOwnProperty props "to");
             [try (by apply Hres); by specialize (Hto eq_refl) | by eexists]).
  all: destruct Hf as [f Hf], Ht as [t Ht].
  all: exists (normalize props), f, t.
  all: unfold cacheKey, normalize; cbn [fromISO toISO]; rewrite Hf, Ht; done.
Qed.

Lemma sample_coherent : @coherent Sample.languages.
Proof.
  repeat split; try (by eexists).
  intros [| |b|z|s|l|o] Htruthy Hsupported; try done.
  exists s. simpl in *. by rewrite Htruthy, Hsupported.
Qed.

Lemma resolved_codes_witness :
  exists n,
    @prologue Sample.languages
      (Object {[ js "from" := JStr (js "en") ]}) = inr n
    /\ fromISO n = Iso (js "en") /\ toISO n = Iso (js "fr")
    /\ cacheKey n (js "Hello") = js "en-fr-Hello".
Proof.
  destruct (@resolved_codes Sample.languages {[ js "from" := JStr (js "en") ]}
              sample_coherent)
    as [(e & He & _)|(n & f & t & Hn & Hf & Ht & Hkey)];
    [reflexivity | reflexivity | intros _; reflexivity
    | intros Hown; vm_compute in Hown; discriminate | | ].
  - vm_compute in He. discriminate.
  - exists n. pose proof Hn as Hn'. vm_compute in Hn'.
    injection Hn' as <-. repeat split; reflexivity.
Defined.

(** C10. A call whose [options] is an object that passes validation
    returns (whatever its outcome) and leaves that object with [raw] set to
    [Boolean(options.raw)] and every other own property as it was. *)
Theorem options_raw_coerced `{Languages, Upstream, Runtime}
    (fuel : nat) (txt : jsstring) (props : gmap jsstring JsValue)
    (w : World) :
  validate props = inr tt ->
  exists res w' props',
    translate (S (S fuel)) txt (Object props) w
    = Some (res, w', Object props')
    /\ props' = <[js "raw" := JBool (truthy (prop props "raw"))]> props
    /\ props' !! js "raw" = Some (JBool (truthy (prop props "raw")))
    /\ forall k, k <> js "raw" -> props' !! k = props !! k.
Proof.
  intros Hvalid.
  destruct (translate_total fuel txt (Object props) w) as [[[res w'] o'] Hcall].
  pose proof (translate_caller_view _ _ _ _ _ _ _ Hcall) as Ho.
  unfold prologue in Ho. rewrite Hvalid in Ho. simpl in Ho. subst o'.
  eexists res, w', _. split; [exact Hcall|]. split; [reflexivity|]. split.
  - apply lookup_insert_eq.
  - intros k Hk. by apply lookup_insert_ne.
Qed.

Lemma options_raw_coerced_witness :
  exists res w',
    Sample.run Sample.body (js "Hello big world")
      (Object {[ js "to" := JStr (js "en"); js "raw" := JNum 1;
                 js "maxChunkChars" := JNum 6 ]})
      Sample.start
    = Some (res, w',
            Object {[ js "to" := JStr (js "en"); js "raw" := JBool true;
                      js "maxChunkChars" := JNum 6 ]}).
Proof.
  destruct (@options_raw_coerced Sample.languages (Sample.upstream Sample.body)
              Sample.runtime 0 (js "Hello big world")
              {[ js "to" := JStr (js "en"); js "raw" := JNum 1;
                 js "maxChunkChars" := JNum 6 ]} Sample.start)
    as (res & w' & props' & Hcall & -> & _); [reflexivity|].
  exists res, w'. etransitivity; [exact Hcall|].
  by vm_compute.
Defined.

Example chunk_demo :
  Chunk.chunkText (js "hello  big world") 7
  = Some [js "hello  "; js "big "; js "world"].
Proof. reflexivity. Qed.

(** * Further properties *)

(** ** The chunk engine: which chunk can be too long, and empty chunks *)

Module ChunkShape.
Import Chunk.

Lemma nonempty_ne (s : jsstring) : nonempty s = true <-> s <> [].
Proof. by destruct s. Qed.

(** After its first token, [split_go] yields non-empty tokens, except
    possibly the last. *)
Lemma split_go_shape (in_ws : bool) (cur s : jsstring) :
  exists first rest,
    split_go in_ws cur s = first :: rest
    /\ (cur <> [] -> first <> [])
    /\ inner_nonempty rest = true.
Proof.
  revert in_ws cur. induction s as [|c s IH]; intros in_ws cur; simpl.
  - destruct in_ws; eexists _, _; (split; [reflexivity|]); by split.
  - assert (Hnext : forall b, inner_nonempty (split_go b [c] s) = true).
    { intros b. destruct (IH b [c]) as (f & r & -> & Hf & Hr).
      simpl. destruct r; [done|].
      apply andb_true_iff. split; [|done]. apply nonempty_ne. by apply Hf. }
    destruct (is_space c), in_ws.
    + destruct (IH true (cur ++ [c])) as (f & r & -> & Hf & Hr).
      exists f, r. repeat split; [|done]. intros _. apply Hf. by destruct cur.
    + eexists _, _. split; [reflexivity|]. split; [done|]. apply Hnext.
    + eexists _, _. split; [reflexivity|]. split; [done|]. apply Hnext.
    + destruct (IH false (cur ++ [c])) as (f & r & -> & Hf & Hr).
      exists f, r. repeat split; [|done]. intros _. apply Hf. by destruct cur.
Qed.

Lemma tail_snoc (parts : list jsstring) (c : jsstring) :
  parts <> [] -> tail (parts ++ [c]) = tail parts ++ [c].
Proof. by destruct parts. Qed.

Lemma hard_split_tail fuel limit parts current parts' current' :
  0 < limit -> parts <> [] ->
  Forall (fits limit) (tail parts) ->
  hard_split fuel limit parts current = Some (parts', current') ->
  parts' <> []
  /\ Forall (fits limit) (tail parts')
  /\ length current' <= limit
  /\ (current <> [] -> current' <> []).
Proof.
  intros Hlimit. revert parts current.
  induction fuel as [|fuel IH]; intros parts current Hne Hparts; simpl.
  - destruct (Nat.ltb_spec limit (length current)); [done|].
    intros [= <- <-]. done.
  - destruct (Nat.ltb_spec limit (length current)) as [Hlt|Hge].
    + intros Hs. apply IH in Hs as (Hp & Ht & Hl & Hc).
      * repeat split; try done. intros _. apply Hc.
        intros Hd. apply (f_equal length) in Hd.
        rewrite length_drop in Hd. simpl in Hd. lia.
      * by destruct parts.
      * rewrite tail_snoc by done. apply Forall_app. split; [done|].
        constructor; [|done]. unfold fits. rewrite length_take. lia.
    + intros [= <- <-]. done.
Qed.

(** The invariant of the loop: only the first part may be too long, and
    once a part exists [current] fits. *)
Lemma step_tail limit parts current tok parts' current' :
  0 < limit ->
  Forall (fits limit) (tail parts) ->
  (parts <> [] -> length current <= limit /\ current <> []) ->
  step limit (parts, current) tok = Some (parts', current') ->
  Forall (fits limit) (tail parts')
  /\ (parts' <> [] ->
      length current' <= limit /\ (tok <> [] -> current' <> [])).
Proof.
  intros Hlimit Hparts Hcur. unfold step.
  destruct (Nat.ltb_spec limit (length (current ++ tok))) as [Hlt|Hge];
    simpl.
  - destruct current as [|c current]; simpl.
    + intros [= <- <-]. split; [done|]. intros Hne.
      destruct (Hcur Hne) as [_ ?]. done.
    + intros Hs.
      apply hard_split_tail in Hs as (Hp & Ht & Hl & Hc); try done.
      * by destruct parts.
      * destruct parts as [|p parts]; [by constructor|].
        rewrite tail_snoc by done. apply Forall_app. split; [done|].
        constructor; [|done]. by apply Hcur.
  - intros [= <- <-]. split; [done|]. intros Hne.
    destruct (Hcur Hne) as [_ Hc]. split; [done|]. intros _.
    by destruct current.
Qed.

Lemma loop_tail limit tokens parts current parts' current' :
  0 < limit ->
  inner_nonempty tokens = true ->
  Forall (fits limit) (tail parts) ->
  (parts <> [] -> length current <= limit /\ current <> []) ->
  loop limit (parts, current) tokens = Some (parts', current') ->
  Forall (fits limit) (tail parts')
  /\ (parts' <> [] -> length current' <= limit).
Proof.
  intros Hlimit. revert parts current.
  induction tokens as [|tok rest IH]; intros parts current Hin Hp Hc;
    cbn [loop].
  - intros [= <- <-]. split; [done|]. intros Hne. by apply Hc.
  - destruct (step limit (parts, current) tok) as [[p1 c1]|] eqn:Hstep;
      [|done].
    destruct (step_tail _ _ _ _ _ _ Hlimit Hp Hc Hstep) as [Hp1 Hc1].
    destruct rest as [|t2 rest].
    + cbn [loop]. intros [= <- <-]. split; [done|]. intros Hne.
      by apply Hc1.
    + cbn [inner_nonempty] in Hin. apply andb_true_iff in Hin as [Htok Hin].
      apply nonempty_ne in Htok.
      apply IH; try done. intros Hne. destruct (Hc1 Hne). auto.
Qed.

(** The loop never pushes an empty part. *)
Lemma hard_split_nonempty fuel limit parts current parts' current' :
  0 < limit ->
  Forall (fun c => c <> []) parts ->
  hard_split fuel limit parts current = Some (parts', current') ->
  Forall (fun c => c <> []) parts'.
Proof.
  intros Hlimit. revert parts current.
  induction fuel as [|fuel IH]; intros parts current Hparts; simpl.
  - destruct (limit <? length current); [done|]. by intros [= <- <-].
  - destruct (Nat.ltb_spec limit (length current)) as [Hlt|Hge].
    + apply IH. apply Forall_app. split; [done|]. constructor; [|done].
      intros Ht. apply (f_equal length) in Ht. rewrite length_take in Ht.
      simpl in Ht. lia.
    + by intros [= <- <-].
Qed.

Lemma loop_nonempty limit tokens parts current parts' current' :
  0 < limit ->
  Forall (fun c => c <> []) parts ->
  loop limit (parts, current) tokens = Some (parts', current') ->
  Forall (fun c => c <> []) parts'.
Proof.
  intros Hlimit. revert parts current.
  induction tokens as [|tok rest IH]; intros parts current Hparts;
    cbn [loop].
  - by intros [= <- <-].
  - destruct (step limit (parts, current) tok) as [[p1 c1]|] eqn:Hstep;
      [|done].
    apply IH. unfold step in Hstep.
    destruct (_ && _) eqn:Hcond.
    + apply hard_split_nonempty in Hstep; [done..|].
      apply Forall_app. split; [done|]. constructor; [|done].
      apply andb_true_iff in Hcond as [_ Hc]. by destruct current.
    + by injection Hstep as <- <-.
Qed.

End ChunkShape.

(** X1. Only the first chunk can exceed the limit, and when it does it is
    one unbroken run (of whitespace or of non-whitespace): every later
    chunk has at most [limit] code units. *)
Theorem chunkText_only_first_overlong (str : jsstring) (limit : nat) :
  0 < limit ->
  exists chunks,
    Chunk.chunkText str limit = Some chunks
    /\ Forall (fun c => length c <= limit) (tail chunks)
    /\ (forall c, head chunks = Some c -> limit < length c ->
                  is_run c = true).
Proof.
  intros Hlimit.
  destruct (ChunkFacts.chunkText_total str limit Hlimit) as [chunks Hc].
  exists chunks. split; [done|]. split.
  - unfold Chunk.chunkText in Hc.
    destruct (length str <=? limit); [by injection Hc as <-|].
    destruct (Chunk.loop limit ([], []) (Chunk.split_ws str))
      as [[parts current]|] eqn:Hl; [|done].
    injection Hc as <-.
    unfold Chunk.split_ws in Hl.
    destruct (ChunkShape.split_go_shape false [] str)
      as (first & rest & Hsplit & _ & Hrest).
    rewrite Hsplit in Hl. cbn [Chunk.loop] in Hl.
    rewrite ChunkFacts.step_first in Hl.
    apply ChunkShape.loop_tail in Hl as [Hp Hcur]; try done.
    unfold Chunk.finish. destruct current as [|c current]; [done|].
    destruct parts as [|p parts]; [done|].
    rewrite ChunkShape.tail_snoc by done. apply Forall_app. split; [done|].
    constructor; [|done]. by apply Hcur.
  - intros c Hhead Hlong.
    apply ChunkFacts.chunkText_settled in Hc.
    destruct chunks as [|c' chunks]; [done|]. injection Hhead as ->.
    apply Forall_cons in Hc as [Hc _]. unfold settled in Hc.
    apply orb_true_iff in Hc as [Hc|Hc]; [|done].
    apply Nat.leb_le in Hc. lia.
Qed.

Lemma chunkText_only_first_overlong_witness :
  exists chunks,
    Chunk.chunkText (js "abcdefghijkl mnopqrstuvw xy") 5 = Some chunks
    /\ Forall (fun c => length c <= 5) (tail chunks).
Proof.
  destruct (chunkText_only_first_overlong (js "abcdefghijkl mnopqrstuvw xy") 5)
    as (chunks & Hc & Htail & _); [lia|].
  by exists chunks.
Defined.

(** X2. A non-empty text never yields an empty chunk, and always yields at
    least one chunk. *)
Theorem chunkText_no_empty_chunk (str : jsstring) (limit : nat) :
  0 < limit -> str <> [] ->
  exists chunks,
    Chunk.chunkText str limit = Some chunks
    /\ chunks <> []
    /\ Forall (fun c => c <> []) chunks.
Proof.
  intros Hlimit Hstr.
  destruct (ChunkFacts.chunkText_total str limit Hlimit) as [chunks Hc].
  exists chunks. split; [done|].
  unfold Chunk.chunkText in Hc.
  destruct (length str <=? limit).
  - injection Hc as <-. split; [done|]. by constructor.
  - destruct (Chunk.loop limit ([], []) (Chunk.split_ws str))
      as [[parts current]|] eqn:Hl; [|done].
    injection Hc as <-. split.
    + intros Hnil. change (Chunk.finish (parts, current) = []) in Hnil.
      assert (Hcat : concat (Chunk.finish (parts, current)) = str).
      { rewrite ChunkFacts.finish_concat.
        apply ChunkFacts.loop_flat in Hl. rewrite Hl.
        unfold flat. simpl. apply ChunkFacts.split_ws_concat. }
      rewrite Hnil in Hcat. simpl in Hcat. by subst.
    + apply ChunkShape.loop_nonempty in Hl; [|done..].
      unfold Chunk.finish. destruct current; [done|].
      apply Forall_app. split; [done|]. by constructor.
Qed.

Lemma chunkText_no_empty_chunk_witness :
  exists chunks,
    Chunk.chunkText (js "  hello  big   world  ") 3 = Some chunks
    /\ chunks <> []
    /\ Forall (fun c => c <> []) chunks.
Proof.
  apply (chunkText_no_empty_chunk (js "  hello  big   world  ") 3);
    [lia | done].
Defined.

(** X3. A text without any whitespace is never split, whatever its length
    and whatever the limit: it comes back as the single chunk. *)
Theorem chunkText_unbroken_text_unsplit (str : jsstring) (limit : nat) :
  no_space str = true -> Chunk.chunkText str limit = Some [str].
Proof.
  intros Hns. unfold Chunk.chunkText.
  destruct (Nat.leb_spec (length str) limit) as [|Hlong]; [done|].
  unfold Chunk.split_ws. rewrite ChunkFacts.split_go_no_space by done.
  cbn [Chunk.loop]. rewrite ChunkFacts.step_first. simpl.
  destruct str; [simpl in Hlong; lia | done].
Qed.

Lemma chunkText_unbroken_text_unsplit_witness :
  Chunk.chunkText (js "https://example.org/a/very/long/path?x=1") 10
  = Some [js "https://example.org/a/very/long/path?x=1"].
Proof.
  by apply (chunkText_unbroken_text_unsplit
              (js "https://example.org/a/very/long/path?x=1") 10).
Defined.

(** ** The unsplit path: failures and the cache *)

Section UnsplitFacts.
Context `{Languages, Upstream, Runtime}.

Lemma unsplit_miss_call fuel txt options n w :
  unsplit_miss options n txt w ->
  let out := single n txt (cacheKey n txt) (cache_get (cacheKey n txt) w).2 in
  translate (S fuel) txt options w = Some (out.1, out.2, caller_view options n).
Proof.
  intros (Hn & Hmiss & limit & chunks & Hlimit & Hchunks & Hone).
  by eapply translate_unsplit.
Qed.

(** [single] touches no entry but that of its key, and only on success. *)
Lemma single_cache_frame n txt key w :
  let out := single n txt key w in
  (forall k, k <> key -> cache out.2 !! k = cache w !! k)
  /\ (forall e, out.1 = inl e -> cache out.2 = cache w)
  /\ (forall r, out.1 = inr r ->
        cache out.2 !! key
        = Some (r, (now out.2 + Cache.stdTTL * 1000)%N)).
Proof.
  unfold single, await_token, await_request.
  destruct (generate (trace w) txt) as [m| | |name value]; cbn [fst snd cache];
    try (repeat split; done).
  destruct (negb (nonempty name) || negb (nonempty value));
    [repeat split; done|].
  destruct (Builder.requestOptions _ _ _ _ _) as [e|req];
    [repeat split; done|].
  cbn [trace cache now].
  destruct (request _ _) as [m|resp]; [repeat split; done|].
  destruct (_ && _)%N; [repeat split; done|].
  destruct (bind_throw _ _) as [e|result]; [repeat split; done|].
  cbn [fst snd]. unfold cache_set, Cache.set. cbn [cache now].
  split; [|split].
  - intros k Hk. by rewrite lookup_insert_ne.
  - done.
  - intros r [= <-]. apply lookup_insert_eq.
Qed.

End UnsplitFacts.

(** X4. An unsplit call changes no cache entry but the one of its own key;
    when it fails the cache is left exactly as it was, and when it succeeds
    its result is stored under its key with a time-to-live of 86 400
    seconds from the moment of the write. *)
Theorem unsplit_call_cache_frame `{Languages, Upstream, Runtime}
    (fuel : nat) (txt : jsstring) (options : OptionsArg) (n : Normalized)
    (w : World) :
  unsplit_miss options n txt w ->
  exists res w',
    translate (S fuel) txt options w = Some (res, w', caller_view options n)
    /\ (forall k, k <> cacheKey n txt -> cache w' !! k = cache w !! k)
    /\ (forall e, res = inl e -> cache w' = cache w)
    /\ (forall r, res = inr r ->
          cache w' !! cacheKey n txt = Some (r, (now w' + 86400000)%N)).
Proof.
  intros Hu. eexists _, _. split; [by apply unsplit_miss_call|].
  destruct (single_cache_frame n txt (cacheKey n txt)
              (cache_get (cacheKey n txt) w).2) as (Hk & He & Hr).
  split; [exact Hk|]. split; [exact He|]. exact Hr.
Qed.

Lemma sample_unsplit_miss :
  @unsplit_miss Sample.languages Sample.runtime (Object ∅)
    (@normalize Sample.languages ∅) (js "Hello") Sample.start.
Proof.
  split; [reflexivity|]. split; [reflexivity|].
  exists 4500, [js "Hello"]. repeat split; try reflexivity; simpl; lia.
Qed.

Lemma unsplit_call_cache_frame_witness :
  exists res w',
    Scenario.run TokenIsFalsy (RequestFails []) (js "Hello") (Object ∅)
      Sample.start
    = Some (res, w', Object {[ js "raw" := JBool false ]})
    /\ (forall e, res = inl e -> cache w' = ∅).
Proof.
  destruct (@unsplit_call_cache_frame Sample.languages
              (Scenario.upstream TokenIsFalsy (RequestFails []))
              Sample.runtime 1 (js "Hello") (Object ∅)
              (@normalize Sample.languages ∅) Sample.start
              sample_unsplit_miss)
    as (res & w' & Hcall & _ & He & _).
  exists res, w'. split; [exact Hcall|]. exact He.
Defined.

(** X5. When the token provider answers with an Error, a falsy value, or a
    token whose name or value is empty, the call throws error 503 "Failed
    to generate translate token" right after the token call: no request is
    made and nothing is written to the cache. *)
Theorem invalid_token_unavailable `{Languages, Upstream, Runtime}
    (fuel : nat) (txt : jsstring) (options : OptionsArg) (n : Normalized)
    (w : World) :
  unsplit_miss options n txt w ->
  token_invalid (generate (trace w ++ [CacheGet (cacheKey n txt)]) txt)
  = true ->
  translate (S fuel) txt options w
  = Some (inl (makeError 503 (js "Failed to generate translate token") None),
          after_token (cacheKey n txt) txt w,
          caller_view options n)
  /\ trace (after_token (cacheKey n txt) txt w)
     = trace w ++ [CacheGet (cacheKey n txt); TokenCall txt]
  /\ cache (after_token (cacheKey n txt) txt w) = cache w.
Proof.
  intros Hu Htok. rewrite (unsplit_miss_call fuel _ _ _ _ Hu).
  unfold after_token, single, await_token, cache_get. cbn [snd trace cache].
  split; [|split; [by rewrite <- app_assoc | done]].
  destruct (generate _ txt) as [m| | |name value]; try done.
  simpl in Htok. by rewrite Htok.
Qed.

Lemma invalid_token_unavailable_witness :
  exists w',
    Scenario.run (Token (js "tk") []) (RequestFails []) (js "Hello")
      (Object ∅) Sample.start
    = Some (inl (makeError 503 (js "Failed to generate translate token")
                   None),
            w', Object {[ js "raw" := JBool false ]})
    /\ trace w' = [CacheGet (js "auto-fr-Hello"); TokenCall (js "Hello")].
Proof.
  destruct (@invalid_token_unavailable Sample.languages
              (Scenario.upstream (Token (js "tk") []) (RequestFails []))
              Sample.runtime 1 (js "Hello") (Object ∅)
              (@normalize Sample.languages ∅) Sample.start
              sample_unsplit_miss eq_refl)
    as (Hcall & Htrace & _).
  eexists. split; [exact Hcall|]. exact Htrace.
Defined.

Section TransportFacts.
Context `{Languages, Upstream, Runtime}.

(** An unsplit call with a usable token, up to the answer of the
    transport. *)
Lemma unsplit_requested fuel txt options n w req :
  unsplit_miss options n txt w ->
  token_granted n txt w req ->
  let key := cacheKey n txt in
  let w2 := (await_request req (after_token key txt w)).2 in
  trace w2 = trace w ++ [CacheGet key; TokenCall txt; TransportCall req]
  /\ cache w2 = cache w
  /\ translate (S fuel) txt options w
     = Some
         (match transport_answer key txt w req with
          | RequestFails message =>
              (inl (makeError 503 (js "Translate request failed: " ++ message)
                              (Some (Rejection message))), w2)
          | Responds resp =>
              if ((0 <? statusCode resp) && (400 <=? statusCode resp))%N then
                (inl (makeError (statusCode resp)
                        (js "Translate request failed with status "
                         ++ num_to_string (Z.of_N (statusCode resp))) None),
                 w2)
              else
                match (body <-! read_body resp;
                       Parser.parse_response (want_raw n)
                         (iso_value (fromISO n)) body) with
                | inl e => (inl e, w2)
                | inr result => (inr result, cache_set key result w2)
                end
          end, caller_view options n).
Proof.
  intros Hu (name & value & Htok & Hname & Hvalue & Hreq) key w2.
  split; [|split].
  - subst w2. unfold after_token, await_request, await_token, cache_get.
    cbn [snd trace]. by rewrite <- !app_assoc.
  - done.
  - rewrite (unsplit_miss_call fuel _ _ _ _ Hu). fold key.
    unfold single, transport_answer.
    subst w2. unfold after_token, await_token, cache_get. cbn [snd trace].
    fold key in Htok. rewrite Htok.
    destruct name as [|c1 name]; [done|].
    destruct value as [|c2 value]; [done|].
    cbn [nonempty negb orb]. rewrite Hreq.
    unfold await_request. cbn [trace snd].
    rewrite <- !app_assoc. cbn [app].
    destruct (request _ _) as [m|resp]; [done|].
    destruct (_ && _)%N; [done|].
    by destruct (bind_throw _ _).
Qed.

End TransportFacts.

(** X6. In an unsplit call whose request could be built (the token is
    usable and the URL encoder did not throw), when the request itself
    fails (the transport rejects), the call throws error 503 whose message
    ends with the transport's message and whose cause is the transport's
    error; exactly one request was made and the cache is untouched. *)
Theorem transport_failure_unavailable `{Languages, Upstream, Runtime}
    (fuel : nat) (txt : jsstring) (options : OptionsArg) (n : Normalized)
    (w : World) (req : Request) (message : jsstring) :
  unsplit_miss options n txt w ->
  token_granted n txt w req ->
  transport_answer (cacheKey n txt) txt w req = RequestFails message ->
  exists w',
    translate (S fuel) txt options w
    = Some (inl (makeError 503 (js "Translate request failed: " ++ message)
                   (Some (Rejection message))),
            w', caller_view options n)
    /\ trace w' = trace w ++ [CacheGet (cacheKey n txt); TokenCall txt;
                              TransportCall req]
    /\ cache w' = cache w.
Proof.
  intros Hu Hg Hans.
  destruct (unsplit_requested fuel _ _ _ _ _ Hu Hg) as (Htrace & Hcache & Hcall).
  rewrite Hans in Hcall. eexists. split; [exact Hcall|]. by split.
Qed.

(** X7. In an unsplit call whose request could be built (the token is
    usable and the URL encoder did not throw), a response whose status is
    400 or more makes the call throw an error whose code is that status,
    whatever the body holds; the body is not decoded and nothing is
    cached. *)
Theorem status_error_surfaced `{Languages, Upstream, Runtime}
    (fuel : nat) (txt : jsstring) (options : OptionsArg) (n : Normalized)
    (w : World) (req : Request) (resp : Response) :
  unsplit_miss options n txt w ->
  token_granted n txt w req ->
  transport_answer (cacheKey n txt) txt w req = Responds resp ->
  (400 <= statusCode resp)%N ->
  exists e w',
    translate (S fuel) txt options w = Some (inl e, w', caller_view options n)
    /\ error_code e = Some (statusCode resp)
    /\ e = makeError (statusCode resp)
             (js "Translate request failed with status "
              ++ num_to_string (Z.of_N (statusCode resp))) None
    /\ cache w' = cache w.
Proof.
  intros Hu Hg Hans Hstatus.
  destruct (unsplit_requested fuel _ _ _ _ _ Hu Hg) as (Htrace & Hcache & Hcall).
  rewrite Hans in Hcall.
  destruct (N.ltb_spec 0 (statusCode resp)); [|lia].
  destruct (N.leb_spec 400 (statusCode resp)); [|lia].
  simpl in Hcall. eexists _, _. split; [exact Hcall|]. by repeat split.
Qed.

(** The parser only ever throws the runtime's TypeError. *)
Lemma JsValue_nested_ind (P : JsValue -> Prop) :
  P JUndefined -> P JNull -> (forall b, P (JBool b)) ->
  (forall z, P (JNum z)) -> (forall s, P (JStr s)) ->
  (forall elems, Forall P elems -> P (JArr elems)) ->
  (forall props, P (JObj props)) ->
  forall v, P v.
Proof.
  intros Hu Hn Hb Hz Hs Ha Ho. fix IH 1.
  intros [| |b|z|s|elems|props];
    [exact Hu | exact Hn | apply Hb | apply Hz | apply Hs | | apply Ho].
  apply Ha. induction elems as [|x elems IHl]; constructor;
    [apply IH | exact IHl].
Qed.

Lemma to_string_throws v e : to_string v = inl e -> e = TypeError.
Proof.
  revert e. induction v as [| |[|]|z|s|elems IH|props]
    using JsValue_nested_ind; intros e; simpl; try done.
  - induction IH as [|x rest Hx _ IHrest]; [done|].
    destruct (nullish x); simpl.
    + destruct rest; [done|].
      match goal with |- context [bind_throw ?m _] => destruct m eqn:Hj end;
        simpl; [|done].
      intros [= <-]. by apply IHrest.
    + destruct (to_string x) as [ex|sx] eqn:Hsx; simpl.
      * intros [= <-]. by apply Hx.
      * destruct rest; [done|].
        match goal with |- context [bind_throw ?m _] => destruct m eqn:Hj end;
          simpl; [|done].
        intros [= <-]. by apply IHrest.
  - destruct (assoc _ _); [by intros [= <-]|done].
Qed.

Lemma index_throws v i e : index v i = inl e -> e = TypeError.
Proof. destruct v; simpl; try done; by intros [= <-]. Qed.

Lemma append_segments_throws segs acc e :
  Parser.append_segments acc segs = inl e -> e = TypeError.
Proof.
  revert acc. induction segs as [|obj rest IH]; intros acc; simpl; [done|].
  unfold Parser.append_segment.
  destruct (truthy obj); simpl; [|apply IH].
  destruct (index obj 0) as [ei|first] eqn:Hi; simpl.
  - intros [= <-]. by eapply index_throws.
  - destruct (truthy first); simpl; [|apply IH].
    destruct (to_string first) as [es|s] eqn:Hs; simpl; [|apply IH].
    intros [= <-]. by eapply to_string_throws.
Qed.

Lemma parse_response_throws raw_wanted fromISO body e :
  Parser.parse_response raw_wanted fromISO body = inl e -> e = TypeError.
Proof.
  unfold Parser.parse_response.
  destruct (Parser.extract_text body) as [e1|t1] eqn:Ht; simpl.
  - intros [= <-]. revert Ht. unfold Parser.extract_text.
    destruct (isArray body); [|done].
    destruct (index body 0) as [ei|b0] eqn:Hi; simpl.
    + intros [= <-]. by eapply index_throws.
    + destruct b0; try done. apply append_segments_throws.
  - destruct (Parser.spelling body) as [e2|sugg] eqn:Hsp; simpl; [|done].
    intros [= <-]. revert Hsp. unfold Parser.spelling.
    destruct (isArray _); [|done].
    destruct (index body 7) as [ei|b7] eqn:Hi; simpl.
    { intros [= <-]. by eapply index_throws. }
    destruct (index b7 0) as [ei|first] eqn:Hf; simpl.
    { intros [= <-]. by eapply index_throws. }
    destruct (truthy first); [|done].
    destruct first; try (by intros [= <-]).
    destruct (index b7 5) as [ei|flag] eqn:H5; simpl.
    { intros [= <-]. by eapply index_throws. }
    by destruct (strict_eq _ _).
Qed.

(** X8. In an unsplit call whose request could be built (the token is
    usable and the URL encoder did not throw), for a response with a status
    below 400, the call throws an error of code 502 exactly when
    [body.json()] fails, [body.text()] then yields a text, and [JSON.parse]
    rejects that text. *)
Theorem format_error_iff `{Languages, Upstream, Runtime}
    (fuel : nat) (txt : jsstring) (options : OptionsArg) (n : Normalized)
    (w : World) (req : Request) (resp : Response) :
  unsplit_miss options n txt w ->
  token_granted n txt w req ->
  transport_answer (cacheKey n txt) txt w req = Responds resp ->
  (statusCode resp < 400)%N ->
  (exists e w' o',
     translate (S fuel) txt options w = Some (inl e, w', o')
     /\ error_code e = Some 502%N)
  <-> (body_json resp = None
       /\ exists t, body_text resp = Some t /\ JSON_parse t = None).
Proof.
  intros Hu Hg Hans Hstatus.
  destruct (unsplit_requested fuel _ _ _ _ _ Hu Hg) as (_ & _ & Hcall).
  rewrite Hans in Hcall.
  destruct (N.leb_spec 400 (statusCode resp)); [lia|].
  rewrite andb_false_r in Hcall. rewrite Hcall. unfold read_body.
  assert (Hparse : forall body e w' o',
            Some (match Parser.parse_response (want_raw n)
                          (iso_value (fromISO n)) body with
                  | inl e0 => (inl e0,
                        (await_request req
                           (after_token (cacheKey n txt) txt w)).2)
                  | inr result => (inr result,
                        cache_set (cacheKey n txt) result
                          (await_request req
                             (after_token (cacheKey n txt) txt w)).2)
                  end, caller_view options n) = Some (inl e, w', o') ->
            error_code e = Some 502%N -> False).
  { intros body e w' o'.
    destruct (Parser.parse_response _ _ body) as [e0|r] eqn:Hp; [|done].
    intros [= <- _ _] Hcode. apply parse_response_throws in Hp. by subst. }
  destruct (body_json resp) as [body|]; simpl.
  - split; [|by intros [? _]].
    intros (e & w' & o' & Heq & Hcode). exfalso. by eapply Hparse.
  - destruct (body_text resp) as [t|]; simpl.
    + destruct (JSON_parse t) as [body|] eqn:Hjp; simpl.
      * split.
        -- intros (e & w' & o' & Heq & Hcode). exfalso. by eapply Hparse.
        -- intros (_ & t' & [= <-] & Hnone). congruence.
      * split; [by eauto|]. intros _. eexists _, _, _. by split.
    + split.
      * by intros (e & w' & o' & [= <- _ _] & Hcode).
      * by intros (_ & t & ? & _).
Qed.

Lemma sample_token_granted answer :
  @token_granted Sample.languages
    (Scenario.upstream (Token (js "tk") (js "1")) answer) Sample.runtime
    (@normalize Sample.languages ∅) (js "Hello") Sample.start
    (GET (js ("https://translate.google.com/translate_a/single"
              ++ "?client=gtx&sl=auto&tl=fr&hl=fr"
              ++ "&dt=at&dt=bd&dt=ex&dt=ld&dt=md&dt=qca&dt=rw"
              ++ "&dt=rm&dt=ss&dt=t&ie=UTF-8&oe=UTF-8&otf=1"
              ++ "&ssel=0&tsel=0&kc=7&q=Hello&tk=1"))).
Proof.
  exists (js "tk"), (js "1").
  split; [reflexivity|]. split; [done|]. split; [done|].
  vm_compute. reflexivity.
Qed.

Lemma transport_failure_unavailable_witness :
  exists w',
    Scenario.run (Token (js "tk") (js "1")) (RequestFails (js "ECONNRESET"))
      (js "Hello") (Object ∅) Sample.start
    = Some (inl (makeError 503 (js "Translate request failed: ECONNRESET")
                   (Some (Rejection (js "ECONNRESET")))),
            w', Object {[ js "raw" := JBool false ]})
    /\ cache w' = ∅.
Proof.
  destruct (@transport_failure_unavailable Sample.languages
              (Scenario.upstream (Token (js "tk") (js "1"))
                 (RequestFails (js "ECONNRESET")))
              Sample.runtime 1 (js "Hello") (Object ∅)
              (@normalize Sample.languages ∅) Sample.start _
              (js "ECONNRESET") sample_unsplit_miss
              (sample_token_granted _) eq_refl)
    as (w' & Hcall & _ & Hcache).
  exists w'. split; [exact Hcall | exact Hcache].
Defined.

Lemma status_error_surfaced_witness :
  exists e w',
    Scenario.run (Token (js "tk") (js "1"))
      (Responds {| statusCode := 429; body_json := Some Sample.body;
                   body_text := None |})
      (js "Hello") (Object ∅) Sample.start
    = Some (inl e, w', Object {[ js "raw" := JBool false ]})
    /\ error_code e = Some 429%N.
Proof.
  destruct (@status_error_surfaced Sample.languages
              (Scenario.upstream (Token (js "tk") (js "1"))
                 (Responds {| statusCode := 429; body_json := Some Sample.body;
                              body_text := None |}))
              Sample.runtime 1 (js "Hello") (Object ∅)
              (@normalize Sample.languages ∅) Sample.start _ _
              sample_unsplit_miss (sample_token_granted _) eq_refl)
    as (e & w' & Hcall & Hcode & _); [done|].
  exists e, w'. split; [exact Hcall | exact Hcode].
Defined.

Lemma format_error_iff_witness :
  exists e w' o',
    Scenario.run (Token (js "tk") (js "1"))
      (Responds {| statusCode := 200; body_json := None;
                   body_text := Some (js "<html>") |})
      (js "Hello") (Object ∅) Sample.start
    = Some (inl e, w', o')
    /\ error_code e = Some 502%N.
Proof.
  apply (@format_error_iff Sample.languages
           (Scenario.upstream (Token (js "tk") (js "1"))
              (Responds {| statusCode := 200; body_json := None;
                           body_text := Some (js "<html>") |}))
           Sample.runtime 1 (js "Hello") (Object ∅)
           (@normalize Sample.languages ∅) Sample.start _ _
           sample_unsplit_miss (sample_token_granted _) eq_refl);
    [done|].
  split; [reflexivity|]. by exists (js "<html>").
Defined.

(** ** The response parser: text, absent suggestions, fail-soft region *)

Module ParserMore.
Import Parser.

Lemma append_segments_strings acc segs :
  append_segments acc (map segment segs)
  = inr (acc ++ concat (map (fun seg => default [] seg.1) segs)).
Proof.
  revert acc. induction segs as [|[[s|] tl] segs IH]; intros acc; simpl.
  - by rewrite app_nil_r.
  - unfold append_segment. simpl. destruct s as [|c s]; simpl.
    + apply IH.
    + rewrite IH. by rewrite <- app_assoc.
  - unfold append_segment. simpl. apply IH.
Qed.

Lemma assoc_has k props : Builder.obj_has k props = false -> assoc k props = None.
Proof.
  induction props as [|[k' v] props IH]; simpl; [done|].
  destruct (bool_decide (k = k')); simpl; [done|]. apply IH.
Qed.

Lemma assoc_plain k props v :
  forallb (fun kv => plain kv.2) props = true ->
  assoc k props = Some v -> plain v = true.
Proof.
  induction props as [|[k' v'] props IH]; simpl; [done|].
  intros [Hv Hrest]%andb_true_iff.
  destruct (bool_decide (k = k')); [by intros [= <-]|]. by apply IH.
Qed.

Lemma index_plain v i x :
  plain v = true -> index v i = inr x -> plain x = true.
Proof.
  destruct v as [| |b|z|s|elems|props]; simpl; try done;
    try (by intros _ [= <-]).
  - intros _ [= <-]. by destruct (s !! i).
  - intros Hall [= <-]. destruct (elems !! i) as [y|] eqn:Hy; [|done].
    simpl. rewrite forallb_forall in Hall. apply Hall.
    apply list_elem_of_In. by eapply list_elem_of_lookup_2.
  - intros [_ Hall]%andb_true_iff [= <-].
    destruct (assoc _ props) as [y|] eqn:Hy; [|done].
    simpl. by eapply assoc_plain.
Qed.

Lemma to_string_plain v : plain v = true -> exists s, to_string v = inr s.
Proof.
  induction v as [| |[|]|z|s|elems IH|props] using JsValue_nested_ind;
    simpl; intros Hp; try (by eexists).
  - induction IH as [|x rest Hx _ IHrest]; [by eexists|].
    simpl in Hp. apply andb_true_iff in Hp as [Hpx Hprest].
    destruct (IHrest Hprest) as [sr Hsr].
    destruct (Hx Hpx) as [sx Hsx].
    destruct (nullish x); simpl.
    + destruct rest; [by eexists|]. rewrite Hsr. simpl. by eexists.
    + rewrite Hsx. simpl. destruct rest; [by eexists|].
      rewrite Hsr. simpl. by eexists.
  - apply andb_true_iff in Hp as [Hno _]. apply negb_true_iff in Hno.
    rewrite (assoc_has _ _ Hno). by eexists.
Qed.

Lemma append_segments_plain acc segs :
  forallb plain segs = true ->
  exists t, append_segments acc segs = inr t.
Proof.
  revert acc. induction segs as [|obj rest IH]; intros acc; simpl;
    [by eexists|].
  intros [Hobj Hrest]%andb_true_iff. unfold append_segment.
  destruct (truthy obj) eqn:Ht; simpl; [|by apply IH].
  destruct (index obj 0) as [e|first] eqn:Hi; simpl.
  - by destruct obj.
  - destruct (truthy first); simpl; [|by apply IH].
    destruct (to_string_plain first) as [s ->];
      [by eapply index_plain|].
    simpl. by apply IH.
Qed.

Lemma extract_text_plain body :
  plain body = true -> exists t, extract_text body = inr t.
Proof.
  intros Hp. unfold extract_text.
  destruct (isArray body) eqn:Harr; [|by eexists].
  destruct (index body 0) as [e|b0] eqn:Hi; simpl; [by destruct body|].
  pose proof (index_plain _ _ _ Hp Hi) as Hb0.
  destruct b0; try (by eexists). by apply append_segments_plain.
Qed.

End ParserMore.

(** X9. When [body[0]] is an array of segments whose first elements are
    strings or null, the translated text is the concatenation, in order,
    of those strings; a null first element contributes nothing. *)
Theorem translated_text_concatenation
    (segs : list (option jsstring * list JsValue)) (rest : list JsValue) :
  Parser.extract_text (JArr (JArr (map segment segs) :: rest))
  = inr (concat (map (fun seg => default [] seg.1) segs))
  /\ forall raw_wanted fromISO r,
       Parser.parse_response raw_wanted fromISO
         (JArr (JArr (map segment segs) :: rest)) = inr r ->
       text r = concat (map (fun seg => default [] seg.1) segs).
Proof.
  assert (Ht : Parser.extract_text (JArr (JArr (map segment segs) :: rest))
               = inr (concat (map (fun seg => default [] seg.1) segs))).
  { unfold Parser.extract_text. simpl.
    by rewrite ParserMore.append_segments_strings. }
  split; [exact Ht|].
  intros raw_wanted fromISO r. unfold Parser.parse_response. rewrite Ht.
  simpl. destruct (Parser.spelling _); [done|]. by intros [= <-].
Qed.

(** X10. Without a truthy first element in an array at index [7], no
    suggestion is recorded: [value] is empty and both [autoCorrected] and
    [didYouMean] of [from.text] are false. *)
Theorem no_suggestion_without_data (body : JsValue) :
  isArray (opt_index body 7) = false
  \/ truthy (opt_index (opt_index body 7) 0) = false ->
  Parser.spelling body = inr Parser.no_suggestion
  /\ forall raw_wanted fromISO r,
       Parser.parse_response raw_wanted fromISO body = inr r ->
       value (from_text (from r)) = []
       /\ autoCorrected (from_text (from r)) = false
       /\ text_didYouMean (from_text (from r)) = false.
Proof.
  intros Hno.
  assert (Hs : Parser.spelling body = inr Parser.no_suggestion).
  { unfold Parser.spelling.
    destruct (opt_index body 7) as [| | | | |elems|] eqn:H7; try done.
    destruct Hno as [Hno|Hno]; [done|].
    rewrite (opt_index_array _ _ _ H7). simpl.
    unfold opt_index in Hno. simpl in Hno. by rewrite Hno. }
  split; [exact Hs|].
  intros raw_wanted fromISO r. unfold Parser.parse_response.
  destruct (Parser.extract_text body); [done|]. rewrite Hs. simpl.
  by intros [= <-].
Qed.

Lemma no_suggestion_without_data_witness :
  Parser.spelling
    (JArr [JArr [JArr [JStr (js "Bonjour")]]; JNull; JStr (js "en")])
  = inr Parser.no_suggestion.
Proof.
  apply (no_suggestion_without_data
           (JArr [JArr [JArr [JStr (js "Bonjour")]]; JNull; JStr (js "en")])).
  by left.
Defined.

(** X11. The parser returns a result, for any requested source and either
    [raw] setting, on every decoded body in which no object carries its
    own [toString] entry and in which a truthy [7][0], if index [7] is an
    array, is a string. *)
Theorem parser_fail_soft (raw_wanted : bool) (fromISO body : JsValue) :
  plain body = true ->
  (isArray (opt_index body 7) = true ->
   truthy (opt_index (opt_index body 7) 0) = true ->
   exists str, opt_index (opt_index body 7) 0 = JStr str) ->
  exists r, Parser.parse_response raw_wanted fromISO body = inr r.
Proof.
  intros Hp H7. unfold Parser.parse_response.
  destruct (ParserMore.extract_text_plain body Hp) as [t ->]. simpl.
  assert (Hs : exists sugg, Parser.spelling body = inr sugg).
  { unfold Parser.spelling.
    destruct (opt_index body 7) as [| | | | |elems|] eqn:Hb7;
      try (by eexists).
    rewrite (opt_index_array _ _ _ Hb7). simpl.
    specialize (H7 eq_refl). unfold opt_index in H7. simpl in H7.
    destruct (truthy (default JUndefined (elems !! 0))) eqn:Ht;
      [|by eexists].
    destruct (H7 eq_refl) as [str ->].
    destruct (strict_eq _ _); by eexists. }
  destruct Hs as [sugg ->]. simpl. by eexists.
Qed.

Lemma parser_fail_soft_witness :
  exists r,
    Parser.parse_response true (JStr (js "auto"))
      (JArr [JNum 3; JObj [(js "x", JNull)]; JBool true; JNull; JNull;
             JNull; JNull; JArr [JStr (js "helo"); JNull]]) = inr r.
Proof.
  apply parser_fail_soft; [reflexivity|].
  intros _ _. by eexists.
Defined.

(** ** The request builder: what the two request forms carry *)

Module BuilderMore.
Import Builder.

Lemma assoc_obj_overwrite_eq k v o :
  obj_has k o = true -> assoc k (obj_overwrite k v o) = Some v.
Proof.
  induction o as [|[k' v'] o IH]; simpl; [done|].
  case_bool_decide as Hk; simpl.
  - intros _. subst. by rewrite bool_decide_eq_true_2.
  - intros Hhas. by rewrite bool_decide_eq_false_2, IH.
Qed.

Lemma assoc_app_new k v o :
  obj_has k o = false -> assoc k (o ++ [(k, v)]) = Some v.
Proof.
  induction o as [|[k' v'] o IH]; simpl.
  - intros _. by rewrite bool_decide_eq_true_2.
  - case_bool_decide; simpl; [done|]. apply IH.
Qed.

(** Reading back the key that was just set. *)
Lemma assoc_obj_set_eq k v o : assoc k (obj_set k v o) = Some v.
Proof.
  unfold obj_set. destruct (obj_has k o) eqn:Hhas.
  - by apply assoc_obj_overwrite_eq.
  - destruct (is_array_index k); [|by apply assoc_app_new].
    simpl. by rewrite bool_decide_eq_true_2.
Qed.

Lemma assoc_obj_delete_ne k q o :
  k <> q -> assoc k (obj_delete q o) = assoc k o.
Proof.
  intros Hne. unfold obj_delete. induction o as [|[k' v] o IH]; [done|].
  rewrite filter_cons. simpl. case_decide as Hk; simpl.
  - by rewrite IH.
  - subst k'. by rewrite bool_decide_eq_false_2.
Qed.

End BuilderMore.

(** X12. The token pair is among the parameters of every request: the
    data of the GET URL maps the token's name to its value, and so does
    the data of the POST URL unless the token is itself named [q].  The
    POST data differs from the GET data in [q] only. *)
Theorem token_parameter_sent (fromISO toISO : IsoCode)
    (txt name value : jsstring) :
  let d := Builder.data fromISO toISO txt name value in
  assoc name d = Some (JStr value)
  /\ (name <> js "q" ->
      assoc name (Builder.obj_delete (js "q") d) = Some (JStr value))
  /\ (forall k, k <> js "q" ->
      assoc k (Builder.obj_delete (js "q") d) = assoc k d).
Proof.
  intros d. split; [apply BuilderMore.assoc_obj_set_eq|]. split.
  - intros Hq. rewrite BuilderMore.assoc_obj_delete_ne by done.
    apply BuilderMore.assoc_obj_set_eq.
  - intros k Hk. by apply BuilderMore.assoc_obj_delete_ne.
Qed.

(** X13. When the token's name is none of the twelve fixed parameter
    names, the request data carries the normalised source as [sl], the
    normalised target as both [tl] and [hl], and the text as [q]; a code
    that [getISOCode] did not resolve travels as [null] or [false]. *)
Theorem language_parameters (fromISO toISO : IsoCode)
    (txt name value : jsstring) :
  name ∉ fixed_keys ->
  let d := Builder.data fromISO toISO txt name value in
  assoc (js "sl") d = Some (iso_value fromISO)
  /\ assoc (js "tl") d = Some (iso_value toISO)
  /\ assoc (js "hl") d = Some (iso_value toISO)
  /\ assoc (js "q") d = Some (JStr txt)
  /\ assoc (js "client") d = Some (JStr (js "gtx")).
Proof.
  intros Hname d. subst d. unfold Builder.data.
  repeat split;
    (rewrite BuilderFacts.assoc_obj_set_ne;
     [reflexivity | intros <-; apply Hname; unfold fixed_keys; set_solver]).
Qed.

Lemma language_parameters_witness :
  assoc (js "sl")
    (Builder.data (Iso (js "auto")) IsoNull (js "Hello") (js "tk") (js "1"))
  = Some (JStr (js "auto"))
  /\ assoc (js "hl")
       (Builder.data (Iso (js "auto")) IsoNull (js "Hello") (js "tk") (js "1"))
     = Some JNull.
Proof.
  destruct (language_parameters (Iso (js "auto")) IsoNull (js "Hello")
              (js "tk") (js "1")) as (Hsl & _ & Hhl & _).
  - unfold fixed_keys. intros Hin.
    repeat (apply elem_of_cons in Hin as [Hin|Hin]; [discriminate|]).
    by apply elem_of_nil in Hin.
  - split; [exact Hsl | exact Hhl].
Defined.

(** ** Chunked calls: merging, failure, depth of the recursion *)

Section MergeFacts.
Context `{Languages, Upstream, Runtime}.

Lemma push_all l vs : foldl push (JArr l) vs = JArr (l ++ vs).
Proof.
  revert l. induction vs as [|v vs IH]; intros l; simpl.
  - by rewrite app_nil_r.
  - rewrite IH. by rewrite <- app_assoc.
Qed.

(** What the loop over the chunks computes when every chunk call
    succeeds. *)
Lemma merge_chunks_success self sub raw_wanted i merged chunks w merged' w' :
  merge_chunks self sub raw_wanted i merged chunks w
  = Some (inr merged', w') ->
  exists rs,
    chunk_runs self sub w chunks rs w'
    /\ text merged' = text merged ++ concat (map text rs)
    /\ from merged' = (if i =? 0 then default (from merged) (head (map from rs))
                       else from merged)
    /\ raw merged' = (if raw_wanted then foldl push (raw merged) (map raw rs)
                      else raw merged).
Proof.
  revert i merged w.
  induction chunks as [|c rest IH]; intros i merged w; simpl.
  - intros [= <- <-]. exists []. split; [constructor|].
    rewrite app_nil_r. by destruct (i =? 0), raw_wanted.
  - destruct (self c sub w) as [[[e|r] w1]|] eqn:Hself; try done.
    intros Hm. apply IH in Hm as (rs & Hruns & Htext & Hfrom & Hraw).
    exists (r :: rs). split; [by econstructor|].
    cbn [text from raw] in *. split; [|split].
    + rewrite Htext. simpl. by rewrite <- app_assoc.
    + rewrite Hfrom. simpl. by destruct (i =? 0).
    + rewrite Hraw. by destruct raw_wanted.
Qed.

(** The loop stops at the first chunk call that throws. *)
Lemma merge_chunks_failure self sub raw_wanted i merged before c remaining
    rs w w1 e w2 :
  chunk_runs self sub w before rs w1 ->
  self c sub w1 = Some (inl e, w2) ->
  merge_chunks self sub raw_wanted i merged (before ++ c :: remaining) w
  = Some (inl e, w2).
Proof.
  intros Hruns. revert i merged.
  induction Hruns as [w|w c0 r w0 cs rs w1 Hc0 _ IH]; intros i merged Hc;
    simpl.
  - by rewrite Hc.
  - rewrite Hc0. by apply IH.
Qed.

Lemma merge_chunks_ext self1 self2 sub raw_wanted i merged chunks w :
  (forall c w', c ∈ chunks -> self1 c sub w' = self2 c sub w') ->
  merge_chunks self1 sub raw_wanted i merged chunks w
  = merge_chunks self2 sub raw_wanted i merged chunks w.
Proof.
  revert i merged w.
  induction chunks as [|c rest IH]; intros i merged w Hext; simpl; [done|].
  rewrite (Hext c w) by by left.
  destruct (self2 c sub w) as [[[e|r] w1]|]; try done.
  apply IH. intros c' w' Hc'. apply Hext. by right.
Qed.

(** A chunk call does not recurse: one level of fuel is all it uses. *)
Lemma translate_chunk_fuel fuel chunk n limit w :
  1 <= limit ->
  settled limit chunk = true ->
  translate (S fuel) chunk (chunk_options n limit) w
  = translate 1 chunk (chunk_options n limit) w.
Proof.
  intros Hlimit Hsettled. cbn [translate].
  destruct (prologue (chunk_options n limit)) as [e|n'] eqn:Hn'; [done|].
  unfold cache_get. destruct (Cache.get _ _ _); [done|].
  rewrite (maxChunkChars_chunk_options _ _ _ Hlimit Hn').
  destruct (ChunkFacts.chunkText_settled_single _ _ Hsettled)
    as (l & -> & Hl).
  by destruct (Nat.ltb_spec 1 (length l)); [lia|].
Qed.

(** The chunked path of a call. *)
Lemma translate_split fuel txt options w n limit chunks :
  prologue options = inr n ->
  Cache.get (cacheKey n txt) (now w) (cache w) = None ->
  maxChunkChars n = inr limit ->
  Chunk.chunkText txt limit = Some chunks ->
  1 < length chunks ->
  translate (S fuel) txt options w
  = match merge_chunks (fun c o w' => fst <$> translate fuel c o w')
            (chunk_options n limit) (want_raw n) 0 (merged_init n) chunks
            (cache_get (cacheKey n txt) w).2 with
    | None => None
    | Some (inl e, w2) => Some (inl e, w2, caller_view options n)
    | Some (inr merged, w2) =>
        Some (inr merged, cache_set (cacheKey n txt) merged w2,
              caller_view options n)
    end.
Proof.
  intros Hn Hmiss Hlimit Hchunks Hmany. cbn [translate].
  rewrite Hn. unfold cache_get. rewrite Hmiss, Hlimit, Hchunks.
  by destruct (Nat.ltb_spec 1 (length chunks)); [|lia].
Qed.

End MergeFacts.

(** X14. A split call that succeeds made one chunk call per chunk, in
    order, each with the options [{from, to, raw, maxChunkChars}] of the
    parent; its [text] is the concatenation of the chunk texts in that
    order, its [from] is that of the first chunk, its [raw] is the array
    of the chunk [raw]s when [raw] was asked for and [""] otherwise, and
    it is cached under the key of the whole text after the last chunk. *)
Theorem chunked_result_merged `{Languages, Upstream, Runtime}
    (fuel : nat) (txt : jsstring) (options : OptionsArg) (n : Normalized)
    (w : World) (limit : nat) (chunks : list jsstring)
    (r : TranslateResult) (w' : World) (o' : OptionsArg) :
  split_miss options n txt w limit chunks ->
  translate (S fuel) txt options w = Some (inr r, w', o') ->
  exists rs w2,
    chunk_runs (fun c o w0 => fst <$> translate fuel c o w0)
      (chunk_options n limit) (cache_get (cacheKey n txt) w).2 chunks rs w2
    /\ length rs = length chunks
    /\ text r = concat (map text rs)
    /\ head (map from rs) = Some (from r)
    /\ raw r = (if want_raw n then JArr (map raw rs) else JStr [])
    /\ w' = cache_set (cacheKey n txt) r w2.
Proof.
  intros (Hn & Hmiss & Hlimit & Hchunks & Hmany) Hcall.
  rewrite (translate_split _ _ _ _ _ _ _ Hn Hmiss Hlimit Hchunks Hmany)
    in Hcall.
  destruct (merge_chunks _ _ _ _ _ _ _) as [[[e|merged] w2]|] eqn:Hm;
    try done.
  injection Hcall as <- <- _.
  apply merge_chunks_success in Hm as (rs & Hruns & Htext & Hfrom & Hraw).
  exists rs, w2.
  assert (Hlen : length rs = length chunks).
  { clear -Hruns. induction Hruns; simpl; congruence. }
  split; [done|]. split; [done|]. split; [done|]. split; [|split; [|done]].
  - simpl in Hfrom. rewrite Hfrom.
    destruct rs as [|r0 rs]; [|done].
    simpl in Hlen. lia.
  - rewrite Hraw. unfold merged_init. cbn [raw].
    destruct (want_raw n); [|done]. by rewrite push_all.
Qed.

(** X15. A split call stops at the first chunk call that throws: it
    throws the same error, leaves the world as that chunk call left it,
    makes no call for the remaining chunks and does not write the entry
    of the whole text. *)
Theorem chunk_failure_stops `{Languages, Upstream, Runtime}
    (fuel : nat) (txt : jsstring) (options : OptionsArg) (n : Normalized)
    (w : World) (limit : nat) (before : list jsstring) (c : jsstring)
    (remaining : list jsstring) (rs : list TranslateResult)
    (w1 w2 : World) (e : Thrown) :
  split_miss options n txt w limit (before ++ c :: remaining) ->
  chunk_runs (fun c o w0 => fst <$> translate fuel c o w0)
    (chunk_options n limit) (cache_get (cacheKey n txt) w).2 before rs w1 ->
  fst <$> translate fuel c (chunk_options n limit) w1 = Some (inl e, w2) ->
  translate (S fuel) txt options w
  = Some (inl e, w2, caller_view options n).
Proof.
  intros (Hn & Hmiss & Hlimit & Hchunks & Hmany) Hruns Hfail.
  rewrite (translate_split _ _ _ _ _ _ _ Hn Hmiss Hlimit Hchunks Hmany).
  by erewrite merge_chunks_failure.
Qed.

(** X16. The recursion of [translate] is two calls deep at most: every
    call returns with two levels of fuel, whatever the text, the options
    and the answers of the collaborators, and more fuel never changes the
    outcome. *)
Theorem translate_depth_two `{Languages, Upstream, Runtime}
    (fuel : nat) (txt : jsstring) (options : OptionsArg) (w : World) :
  is_Some (translate 2 txt options w)
  /\ translate (S (S fuel)) txt options w = translate 2 txt options w.
Proof.
  split; [apply (translate_total 0)|].
  remember (S fuel) as deep eqn:Hdeep. remember 1 as one eqn:Hone.
  cbn [translate].
  destruct (prologue options) as [e|n]; [done|].
  unfold cache_get. destruct (Cache.get _ _ _); [done|].
  destruct (maxChunkChars n) as [e|limit] eqn:Hlimit; [done|].
  apply maxChunkChars_positive in Hlimit.
  destruct (Chunk.chunkText txt limit) as [chunks|] eqn:Hchunks; [|done].
  destruct (1 <? length chunks); [|done].
  erewrite merge_chunks_ext; [reflexivity|].
  intros c w' Hc. subst deep one.
  apply ChunkFacts.chunkText_settled in Hchunks.
  rewrite Forall_forall in Hchunks.
  by rewrite (translate_chunk_fuel fuel c n limit w' Hlimit (Hchunks c Hc)).
Qed.

Lemma sample_split_miss `{U : Upstream} (w : World) :
  cache w !! js "auto-fr-Hello big world" = None ->
  @split_miss Sample.languages Sample.runtime
    (Object {[ js "maxChunkChars" := JNum 6 ]})
    (@normalize Sample.languages {[ js "maxChunkChars" := JNum 6 ]})
    (js "Hello big world") w 6 [js "Hello "; js "big "; js "world"].
Proof.
  intros Hmiss. split; [reflexivity|]. split.
  - unfold Cache.get.
    change (cacheKey _ _) with (js "auto-fr-Hello big world").
    by rewrite Hmiss.
  - split; [reflexivity|]. split; [reflexivity|]. simpl. lia.
Qed.

Lemma chunked_result_merged_witness :
  exists r w' o' rs,
    Sample.run Sample.body (js "Hello big world")
      (Object {[ js "maxChunkChars" := JNum 6 ]}) Sample.start
    = Some (inr r, w', o')
    /\ length rs = 3
    /\ text r = concat (map text rs)
    /\ text r = js "BonjourBonjourBonjour".
Proof.
  destruct (Sample.run Sample.body (js "Hello big world")
              (Object {[ js "maxChunkChars" := JNum 6 ]}) Sample.start)
    as [[[[e|r] w'] o']|] eqn:Hrun;
    try (vm_compute in Hrun; discriminate).
  destruct (@chunked_result_merged Sample.languages
              (Sample.upstream Sample.body) Sample.runtime 1
              (js "Hello big world")
              (Object {[ js "maxChunkChars" := JNum 6 ]})
              (@normalize Sample.languages {[ js "maxChunkChars" := JNum 6 ]})
              Sample.start 6 [js "Hello "; js "big "; js "world"] r w' o')
    as (rs & w2 & _ & Hlen & Htext & _);
    [by apply (@sample_split_miss (Sample.upstream Sample.body)) | exact Hrun |].
  exists r, w', o', rs. split; [reflexivity|]. split; [exact Hlen|].
  split; [exact Htext|].
  vm_compute in Hrun. injection Hrun as <- _ _. reflexivity.
Defined.

Lemma chunk_failure_stops_witness :
  exists w2,
    @translate Sample.languages
      (Scenario.upstream TokenIsFalsy (RequestFails [])) Sample.runtime
      2 (js "Hello big world") (Object {[ js "maxChunkChars" := JNum 6 ]})
      warm_start
    = Some (inl (makeError 503 (js "Failed to generate translate token")
                   None),
            w2,
            Object {[ js "maxChunkChars" := JNum 6; js "raw" := JBool false ]})
    /\ trace w2 = [CacheGet (js "auto-fr-Hello big world");
                   CacheGet (js "auto-fr-Hello ");
                   CacheGet (js "auto-fr-big ");
                   TokenCall (js "big ")].
Proof.
  eexists. split.
  - etransitivity.
    + eapply (@chunk_failure_stops Sample.languages
                (Scenario.upstream TokenIsFalsy (RequestFails []))
                Sample.runtime 1 (js "Hello big world")
                (Object {[ js "maxChunkChars" := JNum 6 ]})
                (@normalize Sample.languages {[ js "maxChunkChars" := JNum 6 ]})
                warm_start 6 [js "Hello "] (js "big ") [js "world"]).
      * by apply (@sample_split_miss
                    (Scenario.upstream TokenIsFalsy (RequestFails []))).
      * eapply chunk_runs_cons; [reflexivity | apply chunk_runs_nil].
      * reflexivity.
    + reflexivity.
  - reflexivity.
Defined.

(** ** What a call does to the world *)

Section WorldFacts.
Context `{Languages, Upstream, Runtime}.

Lemma follows_refl w : follows w w.
Proof.
  split; [lia|]. split; [exists []; by rewrite app_nil_r|]. by split.
Qed.

Lemma follows_trans w1 w2 w3 : follows w1 w2 -> follows w2 w3 -> follows w1 w3.
Proof.
  intros (Ht1 & [e1 He1] & Hk1 & Ho1) (Ht2 & [e2 He2] & Hk2 & Ho2).
  split; [lia|]. split; [|split].
  - exists (e1 ++ e2). by rewrite He2, He1, app_assoc.
  - intros k Hk. by apply Hk2, Hk1.
  - intros T HT Hout. apply Ho2; [lia|]. by apply Ho1.
Qed.

Lemma follows_step w events later :
  (now w <= later)%N ->
  follows w {| cache := cache w; trace := trace w ++ events; now := later |}.
Proof. intros Hl. split; [done|]. split; [by eexists|]. by split. Qed.

Lemma follows_cache_get key w : follows w (cache_get key w).2.
Proof. apply follows_step. lia. Qed.

Lemma follows_cache_set key v w : follows w (cache_set key v w).
Proof.
  split; [simpl; lia|]. split; [by eexists|]. split.
  - intros k Hk. unfold cache_set, Cache.set. cbn [cache].
    destruct (decide (key = k)) as [->|Hne].
    + rewrite lookup_insert_eq. by eexists.
    + by rewrite lookup_insert_ne.
  - intros T HT Hout k v' t. unfold cache_set, Cache.set. cbn [cache].
    destruct (decide (key = k)) as [->|Hne].
    + rewrite lookup_insert_eq. intros [= _ <-]. unfold Cache.stdTTL. lia.
    + rewrite lookup_insert_ne by done. apply Hout.
Qed.

Lemma follows_single n txt key w : follows w (single n txt key w).2.
Proof.
  unfold single.
  assert (Htok : follows w (await_token txt w).2) by (apply follows_step; lia).
  destruct (await_token txt w) as [token w1]. cbn [snd] in Htok.
  destruct token as [m| | |name value]; try done.
  destruct (negb (nonempty name) || negb (nonempty value)); [done|].
  destruct (Builder.requestOptions _ _ _ _ _) as [e|req]; [done|].
  match goal with
  | |- context [await_request ?req w1] =>
      assert (Hreq : follows w1 (await_request req w1).2)
        by (apply follows_step; lia);
      destruct (await_request req w1) as [outcome w2]
  end.
  cbn [snd] in Hreq.
  pose proof (follows_trans _ _ _ Htok Hreq) as Hw2.
  destruct outcome as [m|resp]; [done|].
  destruct (_ && _)%N; [done|].
  destruct (bind_throw _ _) as [e|result]; [done|].
  cbn [snd]. eapply follows_trans; [exact Hw2|]. apply follows_cache_set.
Qed.

Lemma follows_merge_chunks self sub raw_wanted i merged chunks w res w' :
  (forall c w0 res0 w1, self c sub w0 = Some (res0, w1) -> follows w0 w1) ->
  merge_chunks self sub raw_wanted i merged chunks w = Some (res, w') ->
  follows w w'.
Proof.
  intros Hself. revert i merged w.
  induction chunks as [|c rest IH]; intros i merged w; simpl.
  - intros [= _ <-]. apply follows_refl.
  - destruct (self c sub w) as [[[e|r] w1]|] eqn:Hc; [| |done].
    + intros [= _ <-]. by eapply Hself.
    + intros Hm. eapply follows_trans; [by eapply Hself|]. by eapply IH.
Qed.

Lemma follows_translate fuel txt options w res w' o' :
  translate fuel txt options w = Some (res, w', o') -> follows w w'.
Proof.
  revert txt options w res w' o'.
  induction fuel as [|fuel IH]; intros txt options w res w' o'; [done|].
  cbn [translate].
  destruct (prologue options) as [e|n]; [intros [= _ <- _]; apply follows_refl|].
  pose proof (follows_cache_get (cacheKey n txt) w) as Hget.
  destruct (cache_get (cacheKey n txt) w) as [cached w1]. cbn [snd] in Hget.
  destruct cached; [by intros [= _ <- _]|].
  destruct (maxChunkChars n) as [e|limit]; [by intros [= _ <- _]|].
  destruct (Chunk.chunkText txt limit) as [chunks|]; [|done].
  destruct (1 <? length chunks).
  - destruct (merge_chunks _ _ _ _ _ _ _) as [[[e|merged] w2]|] eqn:Hm;
      [| |done].
    + intros [= _ <- _]. eapply follows_trans; [exact Hget|].
      eapply follows_merge_chunks; [|exact Hm].
      intros c w0 res0 w3 Hc. cbn beta in Hc.
      destruct (translate fuel c (chunk_options n limit) w0)
        as [[[res1 w4] o4]|] eqn:Ht; [|done].
      injection Hc as _ <-. by eapply IH.
    + intros [= _ <- _]. eapply follows_trans; [exact Hget|].
      eapply follows_trans; [|apply follows_cache_set].
      eapply follows_merge_chunks; [|exact Hm].
      intros c w0 res0 w3 Hc. cbn beta in Hc.
      destruct (translate fuel c (chunk_options n limit) w0)
        as [[[res1 w4] o4]|] eqn:Ht; [|done].
      injection Hc as _ <-. by eapply IH.
  - pose proof (follows_single n txt (cacheKey n txt) w1) as Hs.
    destruct (single _ _ _ _) as [res1 w2]. cbn [snd] in Hs.
    intros [= _ <- _]. by eapply follows_trans.
Qed.

End WorldFacts.

(** X17. A call never drops a key from the cache and never lets time or
    the history of interactions go back; if every entry was due to expire
    at [T] or later, and [T] is no later than 24 hours after the call
    began, that is still so when the call ends. *)
Theorem translate_keeps_cache `{Languages, Upstream, Runtime}
    (fuel : nat) (txt : jsstring) (options : OptionsArg) (w : World)
    (res : Thrown + TranslateResult) (w' : World) (o' : OptionsArg) :
  translate fuel txt options w = Some (res, w', o') ->
  (now w <= now w')%N
  /\ (exists events, trace w' = trace w ++ events)
  /\ (forall k, is_Some (cache w !! k) -> is_Some (cache w' !! k))
  /\ (forall T, (T <= now w + 86400000)%N ->
        (forall k v t, cache w !! k = Some (v, t) -> (T <= t)%N) ->
        forall k v t, cache w' !! k = Some (v, t) -> (T <= t)%N).
Proof. intros Hcall. by apply follows_translate in Hcall. Qed.

Lemma translate_keeps_cache_witness :
  exists res w' o',
    @translate Sample.languages (Sample.upstream Sample.body) Sample.runtime
      2 (js "big ") (Object ∅) warm_start = Some (res, w', o')
    /\ is_Some (cache w' !! js "auto-fr-Hello ").
Proof.
  destruct (@translate Sample.languages (Sample.upstream Sample.body)
              Sample.runtime 2 (js "big ") (Object ∅) warm_start)
    as [[[res w'] o']|] eqn:Hrun; [|vm_compute in Hrun; discriminate].
  exists res, w', o'. split; [reflexivity|].
  destruct (translate_keeps_cache _ _ _ _ _ _ _ Hrun) as (_ & _ & Hkeys & _).
  apply Hkeys. vm_compute. by eexists.
Defined.

(** ** The bulk warm-up *)

Section LoadFacts.
Context `{Languages, Upstream, Runtime}.

Lemma load_words_total fuel lang shown words entries w :
  is_Some (load_words (S (S fuel)) lang shown words entries w).
Proof.
  remember (S (S fuel)) as deep eqn:Hdeep.
  revert entries w. induction words as [|word rest IH]; intros entries w;
    cbn [load_words]; [by eexists|].
  destruct (to_string word) as [e|wd]; [by eexists|].
  destruct (cache_get _ w) as [[r|] w1]; [apply IH|].
  destruct (translate deep wd (Object {[ js "to" := lang ]}) w1)
    as [[[[e|r] w2] o2]|] eqn:Ht.
  - by eexists.
  - apply IH.
  - subst deep. by destruct (translate_total fuel wd
                               (Object {[ js "to" := lang ]}) w1) as [x Hx];
      rewrite Hx in Ht.
Qed.

Lemma load_langs_total fuel languages words translations langs w :
  is_Some (load_langs (S (S fuel)) languages words translations langs w).
Proof.
  remember (S (S fuel)) as deep eqn:Hdeep.
  revert translations langs w.
  induction languages as [|lang rest IH]; intros translations langs w;
    cbn [load_langs]; [by eexists|].
  destruct (isSupported lang); simpl.
  - destruct (to_string lang) as [e|shown]; [by eexists|].
    destruct (load_words deep lang shown words ∅ w)
      as [[[e|entries] w']|] eqn:Hw.
    + by eexists.
    + apply IH.
    + subst deep. by destruct (load_words_total fuel lang shown words ∅ w)
        as [x Hx]; rewrite Hx in Hw.
  - destruct (to_string lang); by eexists.
Qed.

(** A run that returns a mapping found every language supported. *)
Lemma load_langs_supported fuel languages words translations langs w x w' :
  load_langs fuel languages words translations langs w = Some (inr x, w') ->
  Forall (fun lang => isSupported lang = true) languages.
Proof.
  revert translations langs w.
  induction languages as [|lang rest IH]; intros translations langs w;
    cbn [load_langs]; [done|].
  destruct (isSupported lang) eqn:Hs; simpl.
  - destruct (to_string lang) as [e|shown]; [done|].
    destruct (load_words _ _ _ _ _ _) as [[[e|entries] w1]|]; try done.
    intros Hl. constructor; [done|]. by eapply IH.
  - by destruct (to_string lang).
Qed.

Lemma own_set_keeps {V} (k k' : jsstring) (v : V) (o : gmap jsstring V) :
  is_Some (o !! k') -> is_Some (own_set k v o !! k').
Proof.
  unfold own_set. case_bool_decide; [done|].
  destruct (decide (k = k')) as [->|Hne].
  - rewrite lookup_insert_eq. by eexists.
  - by rewrite lookup_insert_ne.
Qed.

Lemma own_set_sets {V} (k : jsstring) (v : V) (o : gmap jsstring V) :
  k <> js "__proto__" -> own_set k v o !! k = Some v.
Proof.
  intros Hk. unfold own_set. rewrite bool_decide_eq_false_2 by done.
  apply lookup_insert_eq.
Qed.

Lemma load_words_covers fuel lang shown words entries w entries' w' :
  load_words fuel lang shown words entries w = Some (inr entries', w') ->
  (forall k, is_Some (entries !! k) -> is_Some (entries' !! k))
  /\ covers words entries'.
Proof.
  revert entries w. induction words as [|word rest IH]; intros entries w;
    cbn [load_words].
  - intros [= <- _]. split; [done|]. intros word wd Hin. by apply elem_of_nil in Hin.
  - destruct (to_string word) as [e|wd0] eqn:Hwd; [done|].
    assert (Hnext : forall v w0,
              load_words fuel lang shown rest (own_set wd0 v entries) w0
              = Some (inr entries', w') ->
              (forall k, is_Some (entries !! k) -> is_Some (entries' !! k))
              /\ covers (word :: rest) entries').
    { intros v w0 Hl. apply IH in Hl as [Hkeep Hcov]. split.
      - intros k Hk. by apply Hkeep, own_set_keeps.
      - intros word' wd' Hin Hs Hp. apply elem_of_cons in Hin as [->|Hin].
        + rewrite Hwd in Hs. injection Hs as <-. apply Hkeep.
          rewrite own_set_sets by done. by eexists.
        + by eapply Hcov. }
    destruct (cache_get _ w) as [[r|] w1]; [by apply Hnext|].
    destruct (translate _ _ _ _) as [[[[e|r] w2] o2]|]; try done.
    by apply Hnext.
Qed.

Lemma load_langs_covers fuel languages words translations langs w tr' langs' w' :
  load_langs fuel languages words translations langs w
  = Some (inr (tr', langs'), w') ->
  (forall k e, translations !! k = Some e -> covers words e) ->
  (forall k e, tr' !! k = Some e -> covers words e)
  /\ (forall k, is_Some (translations !! k) -> is_Some (tr' !! k))
  /\ (forall lang shown, lang ∈ languages -> to_string lang = inr shown ->
        shown <> js "__proto__" -> is_Some (tr' !! shown)).
Proof.
  revert translations langs w.
  induction languages as [|lang rest IH]; intros translations langs w;
    cbn [load_langs].
  - intros [= <- _ _] Hcov. split; [done|]. split; [done|].
    intros lang shown Hin. by apply elem_of_nil in Hin.
  - destruct (isSupported lang); simpl; [|by destruct (to_string lang)].
    destruct (to_string lang) as [e|shown0] eqn:Hshown; [done|].
    destruct (load_words _ _ _ _ _ _) as [[[e|entries] w1]|] eqn:Hw;
      try done.
    apply load_words_covers in Hw as [_ Hentries].
    intros Hl Hcov. apply IH in Hl as (Hall & Hkeep & Hnew).
    + split; [done|]. split.
      * intros k Hk. by apply Hkeep, own_set_keeps.
      * intros lang' shown' Hin Hs Hp.
        apply elem_of_cons in Hin as [->|Hin]; [|by eapply Hnew].
        rewrite Hshown in Hs. injection Hs as <-. apply Hkeep.
        rewrite own_set_sets by done. by eexists.
    + intros k e. unfold own_set. case_bool_decide; [apply Hcov|].
      destruct (decide (shown0 = k)) as [->|Hne].
      * rewrite lookup_insert_eq. by intros [= <-].
      * rewrite lookup_insert_ne by done. apply Hcov.
Qed.

End LoadFacts.

(** X18. With an unsupported language anywhere in the list,
    [loadLanguages] throws and returns no mapping, also when the languages
    before it were loaded. *)
Theorem loadLanguages_unsupported `{Languages, Upstream, Runtime}
    (fuel : nat) (languages words : list JsValue) (lang : JsValue)
    (w : World) :
  lang ∈ languages ->
  isSupported lang = false ->
  exists e w',
    loadLanguages (S (S fuel)) (JArr languages) (JArr words) w
    = Some (inl e, w').
Proof.
  intros Hin Hbad. unfold loadLanguages.
  destruct (load_langs_total fuel languages words ∅ [] w)
    as [[[e|[tr langs]] w'] Hl]; rewrite Hl; [by eexists _, _|].
  apply load_langs_supported in Hl. rewrite Forall_forall in Hl.
  specialize (Hl lang Hin). congruence.
Qed.

Lemma loadLanguages_unsupported_witness :
  exists e w',
    @loadLanguages Sample.languages (Sample.upstream Sample.body)
      Sample.runtime 2
      (JArr [JStr (js "en"); JStr (js "xx")]) (JArr [JStr (js "hello")])
      Sample.start
    = Some (inl e, w').
Proof.
  apply (@loadLanguages_unsupported Sample.languages
           (Sample.upstream Sample.body) Sample.runtime 0
           [JStr (js "en"); JStr (js "xx")] [JStr (js "hello")]
           (JStr (js "xx")) Sample.start).
  - right. left.
  - reflexivity.
Defined.

(** X19. The mapping [loadLanguages] returns has an entry for every
    language of the list and, under each, an entry for every word of the
    list (keys are the printed values; a key ["__proto__"] is never an
    own property). *)
Theorem loadLanguages_covers `{Languages, Upstream, Runtime}
    (fuel : nat) (languages words : list JsValue) (w : World)
    (translations : gmap jsstring (gmap jsstring jsstring))
    (logged : jsstring) (w' : World) :
  loadLanguages fuel (JArr languages) (JArr words) w
  = Some (inr (translations, logged), w') ->
  forall lang shown,
    lang ∈ languages -> to_string lang = inr shown ->
    shown <> js "__proto__" ->
    exists entries,
      translations !! shown = Some entries
      /\ forall word wd,
           word ∈ words -> to_string word = inr wd ->
           wd <> js "__proto__" -> is_Some (entries !! wd).
Proof.
  unfold loadLanguages.
  destruct (load_langs _ _ _ _ _ _) as [[[e|[tr langs]] w1]|] eqn:Hl;
    try done.
  intros [= <- _ _] lang shown Hin Hs Hp.
  apply load_langs_covers in Hl as (Hall & _ & Hnew); [|done].
  destruct (Hnew lang shown Hin Hs Hp) as [entries Hentries].
  exists entries. split; [done|]. intros word wd. by eapply Hall.
Qed.

Lemma loadLanguages_covers_witness :
  exists translations logged w' entries,
    @loadLanguages Sample.languages (Sample.upstream Sample.body)
      Sample.runtime 2
      (JArr [JStr (js "en"); JStr (js "fr")])
      (JArr [JStr (js "a"); JStr (js "b")]) Sample.start
    = Some (inr (translations, logged), w')
    /\ translations !! js "fr" = Some entries
    /\ is_Some (entries !! js "b").
Proof.
  destruct (@loadLanguages Sample.languages (Sample.upstream Sample.body)
              Sample.runtime 2
              (JArr [JStr (js "en"); JStr (js "fr")])
              (JArr [JStr (js "a"); JStr (js "b")]) Sample.start)
    as [[[e|[translations logged]] w']|] eqn:Hrun;
    try (vm_compute in Hrun; discriminate).
  destruct (loadLanguages_covers _ _ _ _ _ _ _ Hrun (JStr (js "fr")) (js "fr"))
    as (entries & Hentries & Hwords);
    [right; left | reflexivity | discriminate |].
  exists translations, logged, w', entries.
  split; [reflexivity|]. split; [exact Hentries|].
  apply (Hwords (JStr (js "b")) (js "b"));
    [right; left | reflexivity | discriminate].
Defined.

Section WarmFacts.
Context `{Languages, Upstream, Runtime}.

Lemma load_words_follows fuel lang shown words entries w res w' :
  load_words fuel lang shown words entries w = Some (res, w') ->
  follows w w'.
Proof.
  revert entries w. induction words as [|word rest IH]; intros entries w;
    cbn [load_words].
  - intros [= _ <-]. apply follows_refl.
  - destruct (to_string word) as [e|wd]; [intros [= _ <-]; apply follows_refl|].
    pose proof (follows_cache_get (warm_key shown wd) w) as Hget.
    destruct (cache_get _ w) as [[r|] w1]; cbn [snd] in Hget.
    + intros Hl. eapply follows_trans; [exact Hget|]. by eapply IH.
    + destruct (translate _ _ _ _) as [[[[e|r] w2] o2]|] eqn:Ht; [| |done].
      * intros [= _ <-]. eapply follows_trans; [exact Hget|].
        by eapply follows_translate.
      * intros Hl. eapply follows_trans; [exact Hget|].
        eapply follows_trans; [by eapply follows_translate|].
        eapply follows_trans; [apply follows_cache_set|]. by eapply IH.
Qed.

Lemma load_langs_follows fuel languages words translations langs w res w' :
  load_langs fuel languages words translations langs w = Some (res, w') ->
  follows w w'.
Proof.
  revert translations langs w.
  induction languages as [|lang rest IH]; intros translations langs w;
    cbn [load_langs].
  - intros [= _ <-]. apply follows_refl.
  - destruct (isSupported lang); simpl.
    + destruct (to_string lang) as [e|shown];
        [intros [= _ <-]; apply follows_refl|].
      destruct (load_words _ _ _ _ _ _) as [[[e|entries] w1]|] eqn:Hw;
        [| |done].
      * intros [= _ <-]. by eapply load_words_follows.
      * intros Hl. eapply follows_trans; [by eapply load_words_follows|].
        by eapply IH.
    + destruct (to_string lang); intros [= _ <-]; apply follows_refl.
Qed.

(** After the loop over the words, every warm-up key of the language is
    in the cache. *)
Lemma load_words_warms fuel lang shown words entries w entries' w' :
  load_words fuel lang shown words entries w = Some (inr entries', w') ->
  forall word wd, word ∈ words -> to_string word = inr wd ->
                  is_Some (cache w' !! warm_key shown wd).
Proof.
  revert entries w. induction words as [|word rest IH]; intros entries w;
    cbn [load_words].
  - intros _ word wd Hin. by apply elem_of_nil in Hin.
  - destruct (to_string word) as [e|wd0] eqn:Hwd; [done|].
    unfold cache_get.
    destruct (Cache.get _ _ _) as [r|] eqn:Hget.
    + intros Hl word' wd' Hin Hs.
      apply elem_of_cons in Hin as [->|Hin]; [|by eapply IH].
      rewrite Hwd in Hs. injection Hs as <-.
      apply load_words_follows in Hl as (_ & _ & Hkeep & _).
      apply Hkeep. cbn [cache].
      apply Cache_get_Some in Hget as (t & -> & _). by eexists.
    + destruct (translate _ _ _ _) as [[[[e|r] w2] o2]|]; try done.
      intros Hl word' wd' Hin Hs.
      apply elem_of_cons in Hin as [->|Hin]; [|by eapply IH].
      rewrite Hwd in Hs. injection Hs as <-.
      apply load_words_follows in Hl as (_ & _ & Hkeep & _).
      apply Hkeep. unfold cache_set, Cache.set. cbn [cache].
      rewrite lookup_insert_eq. by eexists.
Qed.

Lemma load_langs_warms fuel languages words translations langs w x w' :
  load_langs fuel languages words translations langs w = Some (inr x, w') ->
  forall lang shown word wd,
    lang ∈ languages -> to_string lang = inr shown ->
    word ∈ words -> to_string word = inr wd ->
    is_Some (cache w' !! warm_key shown wd).
Proof.
  revert translations langs w.
  induction languages as [|lang rest IH]; intros translations langs w;
    cbn [load_langs].
  - intros _ lang shown word wd Hin. by apply elem_of_nil in Hin.
  - destruct (isSupported lang); simpl; [|by destruct (to_string lang)].
    destruct (to_string lang) as [e|shown0] eqn:Hshown; [done|].
    destruct (load_words _ _ _ _ _ _) as [[[e|entries] w1]|] eqn:Hw;
      try done.
    intros Hl lang' shown' word wd Hin Hs Hword Hwd.
    apply elem_of_cons in Hin as [->|Hin]; [|by eapply IH].
    rewrite Hshown in Hs. injection Hs as <-.
    apply load_langs_follows in Hl as (_ & _ & Hkeep & _).
    apply Hkeep. by eapply load_words_warms.
Qed.

(** A warm run: every lookup hits, nothing else happens. *)
Lemma load_words_warm fuel lang shown ws entries w :
  (forall wd, wd ∈ ws ->
     is_Some (Cache.get (warm_key shown wd) (now w) (cache w))) ->
  exists entries',
    load_words fuel lang shown (JStr <$> ws) entries w
    = Some (inr entries',
            {| cache := cache w;
               trace := trace w
                        ++ map (fun wd => CacheGet (warm_key shown wd)) ws;
               now := now w |}).
Proof.
  revert entries w. induction ws as [|wd ws IH]; intros entries w Hlive;
    cbn [load_words fmap list_fmap map to_string].
  - eexists. rewrite app_nil_r. by destruct w.
  - unfold cache_get.
    destruct (Hlive wd) as [r ->]; [by left|].
    destruct (IH (own_set wd (text r) entries)
                {| cache := cache w;
                   trace := trace w ++ [CacheGet (warm_key shown wd)];
                   now := now w |}) as [entries' ->].
    + intros wd' Hin. cbn [cache now]. apply Hlive. by right.
    + eexists. cbn [cache trace now]. by rewrite <- app_assoc.
Qed.

Lemma load_langs_warm fuel ls ws translations langs w :
  (forall l, l ∈ ls -> isSupported (JStr l) = true) ->
  (forall l wd, l ∈ ls -> wd ∈ ws ->
     is_Some (Cache.get (warm_key l wd) (now w) (cache w))) ->
  exists tr' langs',
    load_langs fuel (JStr <$> ls) (JStr <$> ws) translations langs w
    = Some (inr (tr', langs'),
            {| cache := cache w; trace := trace w ++ warm_lookups ls ws;
               now := now w |}).
Proof.
  revert translations langs w.
  induction ls as [|l ls IH]; intros translations langs w Hsup Hlive;
    cbn [load_langs fmap list_fmap].
  - eexists _, _. unfold warm_lookups. simpl. rewrite app_nil_r.
    by destruct w.
  - rewrite Hsup by by left. cbn [negb to_string].
    destruct (load_words_warm fuel (JStr l) l ws ∅ w) as [entries ->].
    { intros wd Hwd. apply Hlive; [by left | done]. }
    destruct (IH (own_set l entries translations) (langs ++ l ++ js ", ")
                {| cache := cache w;
                   trace := trace w
                            ++ map (fun wd => CacheGet (warm_key l wd)) ws;
                   now := now w |}) as (tr' & langs' & ->).
    + intros l' Hl'. apply Hsup. by right.
    + intros l' wd Hl' Hwd. cbn [cache now]. apply Hlive; [by right | done].
    + eexists _, _. cbn [cache trace now]. unfold warm_lookups. simpl.
      by rewrite <- app_assoc.
Qed.

Lemma loadLanguages_warm fuel ls ws w :
  (forall l, l ∈ ls -> isSupported (JStr l) = true) ->
  (forall l wd, l ∈ ls -> wd ∈ ws ->
     is_Some (Cache.get (warm_key l wd) (now w) (cache w))) ->
  exists translations logged,
    loadLanguages fuel (JArr (JStr <$> ls)) (JArr (JStr <$> ws)) w
    = Some (inr (translations, logged),
            {| cache := cache w; trace := trace w ++ warm_lookups ls ws;
               now := now w |}).
Proof.
  intros Hsup Hlive. unfold loadLanguages.
  destruct (load_langs_warm fuel ls ws ∅ [] w Hsup Hlive)
    as (tr & langs & ->).
  by eexists _, _.
Qed.

End WarmFacts.

(** X20. When every language of the list is supported and the cache holds
    a live entry under [`${lang}-auto-${word}`] for every pair,
    [loadLanguages] returns a mapping after the cache lookups alone: no
    token call, no request, no cache write, in the order languages then
    words. *)
Theorem warm_load_no_upstream `{Languages, Upstream, Runtime}
    (fuel : nat) (ls ws : list jsstring) (w : World) :
  (forall l, l ∈ ls -> isSupported (JStr l) = true) ->
  (forall l wd, l ∈ ls -> wd ∈ ws ->
     is_Some (Cache.get (warm_key l wd) (now w) (cache w))) ->
  exists translations logged,
    loadLanguages fuel (JArr (JStr <$> ls)) (JArr (JStr <$> ws)) w
    = Some (inr (translations, logged),
            {| cache := cache w; trace := trace w ++ warm_lookups ls ws;
               now := now w |}).
Proof. apply loadLanguages_warm. Qed.

(** X21. Warm-up is idempotent within the time-to-live.  After a
    [loadLanguages] that returned a mapping, started when every entry of
    the cache was due to expire at [T] or later ([T] at most 24 hours
    ahead), a second [loadLanguages] with the same lists at any time up to
    [T] makes cache lookups only. *)
Theorem warm_load_idempotent `{Languages, Upstream, Runtime}
    (fuel fuel2 : nat) (ls ws : list jsstring) (w w1 : World)
    (translations : gmap jsstring (gmap jsstring jsstring))
    (logged : jsstring) (T now2 : N) :
  loadLanguages fuel (JArr (JStr <$> ls)) (JArr (JStr <$> ws)) w
  = Some (inr (translations, logged), w1) ->
  (forall k v t, cache w !! k = Some (v, t) -> (T <= t)%N) ->
  (T <= now w + 86400000)%N ->
  (now2 <= T)%N ->
  exists translations2 logged2,
    loadLanguages fuel2 (JArr (JStr <$> ls)) (JArr (JStr <$> ws))
      {| cache := cache w1; trace := trace w1; now := now2 |}
    = Some (inr (translations2, logged2),
            {| cache := cache w1; trace := trace w1 ++ warm_lookups ls ws;
               now := now2 |}).
Proof.
  intros Hfirst Hout HT Hnow2.
  unfold loadLanguages in Hfirst.
  destruct (load_langs _ _ _ _ _ _) as [[[e|[tr langs]] w0]|] eqn:Hl;
    try done.
  injection Hfirst as _ _ <-.
  pose proof (load_langs_supported _ _ _ _ _ _ _ _ Hl) as Hsup.
  pose proof (load_langs_warms _ _ _ _ _ _ _ _ Hl) as Hwarm.
  apply load_langs_follows in Hl as (_ & _ & _ & Hkeep).
  specialize (Hkeep T HT Hout).
  apply (loadLanguages_warm fuel2 ls ws
           {| cache := cache w0; trace := trace w0; now := now2 |}).
  - intros l Hin. rewrite Forall_forall in Hsup. apply Hsup.
    by apply list_elem_of_fmap_2.
  - intros l wd Hl' Hwd. cbn [cache now].
    destruct (Hwarm (JStr l) l (JStr wd) wd) as [[v t] Hv];
      [by apply list_elem_of_fmap_2 | done
      | by apply list_elem_of_fmap_2 | done |].
    unfold Cache.get. rewrite Hv.
    specialize (Hkeep _ _ _ Hv).
    destruct (N.leb_spec now2 t); [by eexists | lia].
Qed.

Lemma warm_load_idempotent_witness :
  exists translations logged w1 translations2 logged2,
    @loadLanguages Sample.languages (Sample.upstream Sample.body)
      Sample.runtime 2 (JArr (JStr <$> [js "en"; js "fr"]))
      (JArr (JStr <$> [js "a"; js "b"])) Sample.start
    = Some (inr (translations, logged), w1)
    /\ @loadLanguages Sample.languages (Sample.upstream Sample.body)
         Sample.runtime 0 (JArr (JStr <$> [js "en"; js "fr"]))
         (JArr (JStr <$> [js "a"; js "b"]))
         {| cache := cache w1; trace := trace w1; now := 86400000 |}
       = Some (inr (translations2, logged2),
               {| cache := cache w1;
                  trace := trace w1
                           ++ [CacheGet (js "en-auto-a");
                               CacheGet (js "en-auto-b");
                               CacheGet (js "fr-auto-a");
                               CacheGet (js "fr-auto-b")];
                  now := 86400000 |}).
Proof.
  destruct (@loadLanguages Sample.languages (Sample.upstream Sample.body)
              Sample.runtime 2 (JArr (JStr <$> [js "en"; js "fr"]))
              (JArr (JStr <$> [js "a"; js "b"])) Sample.start)
    as [[[e|[translations logged]] w1]|] eqn:Hrun;
    try (vm_compute in Hrun; discriminate).
  destruct (@warm_load_idempotent Sample.languages
              (Sample.upstream Sample.body) Sample.runtime 2 0
              [js "en"; js "fr"] [js "a"; js "b"] Sample.start w1
              translations logged 86400000%N 86400000%N Hrun)
    as (translations2 & logged2 & Hsecond);
    [by intros k v t Hk | by vm_compute | lia |].
  exists translations, logged, w1, translations2, logged2.
  split; [reflexivity | exact Hsecond].
Defined.

Lemma warm_load_no_upstream_witness :
  exists translations logged,
    @loadLanguages Sample.languages (Sample.upstream Sample.body)
      Sample.runtime 0 (JArr (JStr <$> [js "auto"]))
      (JArr (JStr <$> [js "Hello "])) 
      {| cache := {[ js "auto-auto-Hello " :=
                       (merged_init (@normalize Sample.languages ∅),
                        5%N) ]};
         trace := []; now := 5 |}
    = Some (inr (translations, logged),
            {| cache := {[ js "auto-auto-Hello " :=
                             (merged_init (@normalize Sample.languages ∅),
                              5%N) ]};
               trace := [CacheGet (js "auto-auto-Hello ")]; now := 5 |}).
Proof.
  apply (@warm_load_no_upstream Sample.languages
           (Sample.upstream Sample.body) Sample.runtime 0
           [js "auto"] [js "Hello "]).
  - intros l Hl. apply list_elem_of_singleton in Hl as ->. reflexivity.
  - intros l wd Hl Hwd. apply list_elem_of_singleton in Hl as ->.
    apply list_elem_of_singleton in Hwd as ->. vm_compute. by eexists.
Defined.

(** ** Cache keys *)

Lemma hyphen_split (a a' r r' : jsstring) :
  hyphen_free a = true -> hyphen_free a' = true ->
  a ++ js "-" ++ r = a' ++ js "-" ++ r' -> a = a' /\ r = r'.
Proof.
  revert a'. induction a as [|c a IH]; intros [|c' a']; simpl.
  - by intros _ _ [= ->].
  - intros _ [Hc' _]%andb_true_iff [= <- _]. done.
  - intros [Hc _]%andb_true_iff _ [= -> _]. done.
  - intros [_ Ha]%andb_true_iff [_ Ha']%andb_true_iff [= <- Heq].
    destruct (IH a' Ha Ha' Heq) as [-> ->]. done.
Qed.

(** X22. When the printed source and target codes hold no hyphen, two
    calls get the same cache key only if they agree on the source code, on
    the target code and on the text. *)
Theorem cacheKey_injective (n1 n2 : Normalized) (txt1 txt2 : jsstring) :
  hyphen_free (iso_string (fromISO n1)) = true ->
  hyphen_free (iso_string (toISO n1)) = true ->
  hyphen_free (iso_string (fromISO n2)) = true ->
  hyphen_free (iso_string (toISO n2)) = true ->
  cacheKey n1 txt1 = cacheKey n2 txt2 ->
  iso_string (fromISO n1) = iso_string (fromISO n2)
  /\ iso_string (toISO n1) = iso_string (toISO n2)
  /\ txt1 = txt2.
Proof.
  intros Hf1 Ht1 Hf2 Ht2. unfold cacheKey. intros Hkey.
  apply hyphen_split in Hkey as [Hf Hrest]; [|done..].
  apply hyphen_split in Hrest as [Ht Htxt]; [|done..].
  done.
Qed.

Lemma cacheKey_injective_witness :
  let n := {| fromISO := Iso (js "auto"); toISO := Iso (js "fr");
              options_after := ∅ |} in
  iso_string (fromISO n) = iso_string (fromISO n)
  /\ iso_string (toISO n) = iso_string (toISO n)
  /\ js "Hello" = js "Hello".
Proof.
  intros n. by apply (cacheKey_injective n n (js "Hello") (js "Hello")).
Defined.

(** With a hyphen in a code the key no longer tells the requests apart. *)
Example cacheKey_collision :
  cacheKey {| fromISO := Iso (js "zh"); toISO := Iso (js "CN");
              options_after := ∅ |} (js "en-x")
  = cacheKey {| fromISO := Iso (js "zh-CN"); toISO := Iso (js "en");
                options_after := ∅ |} (js "x").
Proof. reflexivity. Qed.

(** ** The command loader *)

Section LoaderFacts.
Variable pathJoin : jsstring -> jsstring -> jsstring.

Lemma Entry_nested_ind (P : Entry -> Prop) :
  (forall name, P (File name)) ->
  (forall name sub, Forall P sub -> P (Dir name sub)) ->
  forall elt, P elt.
Proof.
  intros Hfile Hdir. fix IH 1. intros [name|name sub]; [apply Hfile|].
  apply Hdir. induction sub as [|x sub IHsub]; constructor;
    [apply IH | exact IHsub].
Qed.

Lemma pathsOf_routes basePath elt :
  pathsOf pathJoin basePath elt
  = map (foldl pathJoin basePath) (routesOf elt).
Proof.
  revert basePath. induction elt as [name|name sub IH] using Entry_nested_ind;
    intros basePath; [done|].
  cbn [pathsOf routesOf]. rewrite map_map. cbn [foldl].
  induction IH as [|x sub Hx _ IHsub]; [done|].
  cbn [flat_map]. rewrite map_app, Hx. by f_equal.
Qed.

End LoaderFacts.

(** X23. [buildPaths] lists one path per file of the tree, in depth-first
    order; the path of a file is [basePath] joined, one [path.join] at a
    time, with the names of the directories leading to it and then its own
    name.  Directories themselves, and empty directories, give no path. *)
Theorem buildPaths_routes (pathJoin : jsstring -> jsstring -> jsstring)
    (basePath : jsstring) (directoryTree : list Entry) :
  buildPaths pathJoin basePath directoryTree
  = map (foldl pathJoin basePath) (routes directoryTree)
  /\ length (buildPaths pathJoin basePath directoryTree)
     = length (routes directoryTree).
Proof.
  assert (Heq : buildPaths pathJoin basePath directoryTree
                = map (foldl pathJoin basePath) (routes directoryTree)).
  { unfold buildPaths, routes.
    induction directoryTree as [|elt rest IH]; [done|].
    cbn [flat_map]. by rewrite map_app, pathsOf_routes, IH. }
  split; [exact Heq|]. by rewrite Heq, length_map.
Qed.

Example buildPaths_demo :
  buildPaths (fun a b => a ++ js "/" ++ b) (js "/cmds")
    [File (js "ping.js"); Dir (js "admin") [File (js "ban.js"); Dir (js "old") []];
     File (js "README.md")]
  = [js "/cmds/ping.js"; js "/cmds/admin/ban.js"; js "/cmds/README.md"].
Proof. reflexivity. Qed.
